(** * ThreadPool: an interleaving model of [src/ThreadPool/src/threadpool.h]

    The pool is shared between the thread that owns it (constructor,
    [setPaused], [addTask], [waitForTasks], [reset], destructor), the worker
    threads stored in [m_threads], and other client threads that call
    [addTask] concurrently.  All atomics of the class are accessed with the
    default sequentially consistent order and the queue only under
    [m_mutex], so an execution is an interleaving of steps, each step being
    one access to shared state (an atomic load, store or increment, or one
    critical section) together with the thread-local code that follows it.

    Every program counter below names the line of [threadpool.h] it stands
    before.  Task bodies are opaque: calling a task is one step that
    records the call; a task that submits further tasks does so as one of
    the other client threads, and no task writes the pool's flags.

    The class catches no exception.  The one exception that an argument
    of the interface causes, [std::length_error] from building a vector
    longer than its [max_size()], ends the run where it is thrown: what a
    caller that catches it does with the pool afterwards is outside the
    model.  Creating a thread and allocating memory are taken to succeed
    and a task to return, as the pool itself assumes. *)

From Stdlib Require Import ZArith List Bool Lia.
From stdpp Require Import base list.
Import ListNotations.
Local Open Scope Z_scope.

(** ** Platform *)

(** What the C++ implementation leaves to the platform: the width of
    [size_t], the value of [std::thread::hardware_concurrency()] (which may
    be 0), the order in which the two operands of the subtraction in
    [getTasksRunningCount] are evaluated (unspecified in C++), and
    [std::vector<std::thread>::max_size()]. *)
Record platform := Platform {
  size_bits : Z;
  hardware_concurrency : Z;
  minuend_first : bool;
  max_size : Z
}.

Definition modulus (P : platform) : Z := 2 ^ size_bits P.

(** A 64-bit platform with four cores; a [std::thread] is one 8-byte
    handle there, so a vector holds at most [(2^63 - 1) / 8] of them. *)
Definition x64 : platform :=
  {| size_bits := 64; hardware_concurrency := 4; minuend_first := true;
     max_size := 2 ^ 60 - 1 |}.

Definition x64_rtl : platform :=
  {| size_bits := 64; hardware_concurrency := 4; minuend_first := false;
     max_size := 2 ^ 60 - 1 |}.

(** ** Tasks *)

(** A [std::function<void()>]: the callable (named by a number, its body is
    opaque to the pool) and the argument values captured by value when the
    task was submitted.  Calling the task calls [callee] on [bound]. *)
Record task := Task { callee : nat; bound : list Z }.

(** ** Threads *)

(** Where a worker stands in [ThreadPool::worker] (lines 174-189). *)
Inductive wpc :=
| WLoop                 (* 176: about to load m_running *)
| WCheckPaused          (* 179: about to load m_paused *)
| WPop                  (* 179: m_paused was read as false; about to call popTask *)
| WRun (t : task)       (* 181: popTask returned true; about to call task() *)
| WDec                  (* 182: task() returned; about to decrement m_tasksTotalCount *)
| WYield                (* 186: about to yield *)
| WDone.                (* the loop was left: the thread function has returned *)

(** A [std::thread] object: default-constructed or joined ("not a thread"),
    or the handle of a worker. *)
Inductive thread :=
| NotAThread
| Worker (pc : wpc).

Definition joinable (th : thread) : bool :=
  match th with NotAThread => false | Worker _ => true end.

(** Who runs the stop-and-join sequence, who called [waitForTasks], and who
    called [createThreads]. *)
Inductive teardown :=
| TReset (threadsCount : Z) (wasPaused : bool)
| TDtor.

Inductive waiter :=
| WUser
| WTeardown (d : teardown).

Inductive builder :=
| BCtor
| BReset (threadsCount : Z) (wasPaused : bool).

(** Where the owning thread stands inside the pool's methods. *)
Inductive opc :=
| OIdle                                   (* outside every method *)
| OSetPaused (b : bool)                   (* 57 *)
| OAddInc (c : task)                      (* 84 *)
| OAddPush (c : task)                     (* 86-87 *)
| OWait (w : waiter)                      (* 106: about to load m_paused *)
| OWaitTotal (w : waiter)                 (* 108: about to load m_tasksTotalCount *)
| OWaitRunning (w : waiter)               (* 115, 68: about to sample the first operand *)
| OWaitRunning2 (w : waiter) (first : Z)  (* 115, 68: about to sample the second operand *)
| OWaitYield (w : waiter)                 (* 120 *)
| OResetLoad (k : Z)                      (* 126 *)
| OResetPause (k : Z) (wasPaused : bool)  (* 127 *)
| OStop (d : teardown)                    (* 129, 51: m_running = false *)
| OJoin (d : teardown) (i : Z)            (* 150-156 *)
| OResetCount (k : Z) (wasPaused : bool)  (* 132 *)
| OResetThreads (k : Z) (wasPaused : bool)(* 133 *)
| OResetUnpause (k : Z) (wasPaused : bool)(* 134 *)
| OResetRun (k : Z) (wasPaused : bool)    (* 135 *)
| OCreate (b : builder) (i : Z)           (* 142-145 *)
| ODestroyed.                             (* the destructor has returned *)

(** ** Pool state *)

(** The data members of [ThreadPool] (lines 32-38), the program counter of
    the owning thread, the concurrent [addTask] calls that have executed
    line 84 but not yet line 87, and a log of the task calls made so far
    (most recent first). *)
Record pool := Pool {
  m_tasks : list task;
  m_threads : list thread;
  m_threadsCount : Z;
  m_tasksTotalCount : Z;
  m_running : bool;
  m_paused : bool;
  owner : opc;
  submitting : list task;
  executed : list task
}.

Definition set_tasks (q : list task) (s : pool) : pool :=
  Pool q (m_threads s) (m_threadsCount s) (m_tasksTotalCount s) (m_running s)
       (m_paused s) (owner s) (submitting s) (executed s).
Definition set_threads (v : list thread) (s : pool) : pool :=
  Pool (m_tasks s) v (m_threadsCount s) (m_tasksTotalCount s) (m_running s)
       (m_paused s) (owner s) (submitting s) (executed s).
Definition set_threadsCount (n : Z) (s : pool) : pool :=
  Pool (m_tasks s) (m_threads s) n (m_tasksTotalCount s) (m_running s)
       (m_paused s) (owner s) (submitting s) (executed s).
Definition set_total (n : Z) (s : pool) : pool :=
  Pool (m_tasks s) (m_threads s) (m_threadsCount s) n (m_running s)
       (m_paused s) (owner s) (submitting s) (executed s).
Definition set_running (b : bool) (s : pool) : pool :=
  Pool (m_tasks s) (m_threads s) (m_threadsCount s) (m_tasksTotalCount s) b
       (m_paused s) (owner s) (submitting s) (executed s).
Definition set_paused (b : bool) (s : pool) : pool :=
  Pool (m_tasks s) (m_threads s) (m_threadsCount s) (m_tasksTotalCount s)
       (m_running s) b (owner s) (submitting s) (executed s).
Definition set_owner (pc : opc) (s : pool) : pool :=
  Pool (m_tasks s) (m_threads s) (m_threadsCount s) (m_tasksTotalCount s)
       (m_running s) (m_paused s) pc (submitting s) (executed s).
Definition set_submitting (l : list task) (s : pool) : pool :=
  Pool (m_tasks s) (m_threads s) (m_threadsCount s) (m_tasksTotalCount s)
       (m_running s) (m_paused s) (owner s) l (executed s).
Definition log_call (c : task) (s : pool) : pool :=
  Pool (m_tasks s) (m_threads s) (m_threadsCount s) (m_tasksTotalCount s)
       (m_running s) (m_paused s) (owner s) (submitting s) (c :: executed s).
Definition set_thread (i : nat) (th : thread) (s : pool) : pool :=
  set_threads (<[i:=th]> (m_threads s)) s.

(** What a step can come to. *)
Inductive result (A : Type) :=
| Ok (a : A)
| Blocked       (* the step cannot be taken now: no such thread, a finished
                   thread, a [join] on a worker still running, a call while
                   the owner is inside another call *)
| Undefined     (* [operator[]] out of the vector's bounds *)
| Terminated    (* [std::terminate]: a joinable [std::thread] is destroyed
                   or assigned to *)
| Thrown.       (* [std::length_error] leaves the call: a vector longer
                   than [max_size()] was asked for *)
Arguments Ok {A} a.
Arguments Blocked {A}.
Arguments Undefined {A}.
Arguments Terminated {A}.
Arguments Thrown {A}.

(** ** The queue *)

(** [popTask] (lines 159-172), one critical section: [Some] head and the
    rest of the queue for [true], [None] and the queue as it was for
    [false]. *)
Definition popTask (q : list task) : option task * list task :=
  match q with
  | [] => (None, q)
  | c :: rest => (Some c, rest)
  end.

(** [getTasksQueuedCount] (lines 60-64), one critical section. *)
Definition getTasksQueuedCount (s : pool) : Z := Z.of_nat (length (m_tasks s)).

(** [getTasksTotalCount] and [getThreadsCount] (lines 71-79). *)
Definition getTasksTotalCount (s : pool) : Z := m_tasksTotalCount s.
Definition getThreadsCount (s : pool) : Z := m_threadsCount s.

Section Model.
Variable P : platform.

(** ** [size_t] arithmetic *)

Definition wrap (z : Z) : Z := z mod modulus P.
Definition size_inc (n : Z) : Z := wrap (n + 1).
Definition size_dec (n : Z) : Z := wrap (n - 1).
Definition size_sub (a b : Z) : Z := wrap (a - b).

(** [getTasksRunningCount] (lines 66-69): the [size_t] difference of the
    value loaded from [m_tasksTotalCount] and the value returned by
    [getTasksQueuedCount()]; the two are sampled in separate steps. *)
Definition getTasksRunningCount (total queued : Z) : Z := size_sub total queued.

(** The value [getTasksRunningCount] would return were both operands
    sampled in state [s]. *)
Definition running_now (s : pool) : Z :=
  getTasksRunningCount (m_tasksTotalCount s) (getTasksQueuedCount s).

(** [threadsCount ? threadsCount : std::thread::hardware_concurrency()]
    (lines 42, 43, 132). *)
Definition fallback (threadsCount : Z) : Z :=
  if threadsCount =? 0 then hardware_concurrency P else threadsCount.

(** ** Worker steps (lines 174-189) *)

Definition worker (i : nat) (s : pool) : result pool :=
  match m_threads s !! i with
  | Some (Worker pc) =>
      match pc with
      | WLoop =>
          Ok (set_thread i (Worker (if m_running s then WCheckPaused else WDone)) s)
      | WCheckPaused =>
          Ok (set_thread i (Worker (if m_paused s then WYield else WPop)) s)
      | WPop =>
          match popTask (m_tasks s) with
          | (Some c, q) => Ok (set_thread i (Worker (WRun c)) (set_tasks q s))
          | (None, q) => Ok (set_thread i (Worker WYield) (set_tasks q s))
          end
      | WRun c => Ok (set_thread i (Worker WDec) (log_call c s))
      | WDec =>
          Ok (set_thread i (Worker WLoop)
                (set_total (size_dec (m_tasksTotalCount s)) s))
      | WYield => Ok (set_thread i (Worker WLoop) s)
      | WDone => Blocked
      end
  | _ => Blocked
  end.

(** ** Owner steps *)

Definition after_wait (w : waiter) : opc :=
  match w with
  | WUser => OIdle
  | WTeardown d => OStop d
  end.

Definition after_join (d : teardown) : opc :=
  match d with
  | TReset k wp => OResetCount k wp
  | TDtor => ODestroyed
  end.

Definition owner_step (s : pool) : result pool :=
  match owner s with
  | OIdle | ODestroyed => Blocked
  (* setPaused, line 57 *)
  | OSetPaused b => Ok (set_owner OIdle (set_paused b s))
  (* addTask, lines 84 and 86-87 *)
  | OAddInc c =>
      Ok (set_owner (OAddPush c) (set_total (size_inc (m_tasksTotalCount s)) s))
  | OAddPush c => Ok (set_owner OIdle (set_tasks (m_tasks s ++ [c]) s))
  (* waitForTasks, lines 104-121 *)
  | OWait w => Ok (set_owner (if m_paused s then OWaitRunning w else OWaitTotal w) s)
  | OWaitTotal w =>
      Ok (set_owner (if m_tasksTotalCount s =? 0 then after_wait w else OWaitYield w) s)
  | OWaitRunning w =>
      Ok (set_owner
            (OWaitRunning2 w (if minuend_first P then m_tasksTotalCount s
                              else getTasksQueuedCount s)) s)
  | OWaitRunning2 w v =>
      let r := if minuend_first P
               then getTasksRunningCount v (getTasksQueuedCount s)
               else getTasksRunningCount (m_tasksTotalCount s) v in
      Ok (set_owner (if r =? 0 then after_wait w else OWaitYield w) s)
  | OWaitYield w => Ok (set_owner (OWait w) s)
  (* reset, lines 126-127; line 128 is OWait *)
  | OResetLoad k => Ok (set_owner (OResetPause k (m_paused s)) s)
  | OResetPause k wp =>
      Ok (set_owner (OWait (WTeardown (TReset k wp))) (set_paused true s))
  (* lines 129 and 51 *)
  | OStop d => Ok (set_owner (OJoin d 0) (set_running false s))
  (* joinThreads, lines 150-156; i + 1 cannot wrap, i < m_threadsCount *)
  | OJoin d i =>
      if i <? m_threadsCount s then
        match m_threads s !! Z.to_nat i with
        | None => Undefined
        | Some NotAThread => Ok (set_owner (OJoin d (i + 1)) s)
        | Some (Worker WDone) =>
            Ok (set_owner (OJoin d (i + 1)) (set_thread (Z.to_nat i) NotAThread s))
        | Some (Worker _) => Blocked
        end
      else Ok (set_owner (after_join d) s)
  (* reset, lines 132-135 *)
  | OResetCount k wp =>
      Ok (set_owner (OResetThreads k wp) (set_threadsCount (fallback k) s))
  | OResetThreads k wp =>
      (* line 133: the temporary vector is built from the raw argument
         first, then move-assigned over [m_threads], whose old elements
         are destroyed *)
      if max_size P <? k then Thrown
      else if existsb joinable (m_threads s) then Terminated
      else Ok (set_owner (OResetUnpause k wp)
                 (set_threads (replicate (Z.to_nat k) NotAThread) s))
  | OResetUnpause k wp => Ok (set_owner (OResetRun k wp) (set_paused false s))
  | OResetRun k wp => Ok (set_owner (OCreate (BReset k wp) 0) (set_running true s))
  (* createThreads, lines 142-145 *)
  | OCreate b i =>
      if i <? m_threadsCount s then
        match m_threads s !! Z.to_nat i with
        | None => Undefined
        | Some NotAThread =>
            Ok (set_owner (OCreate b (i + 1))
                  (set_thread (Z.to_nat i) (Worker WLoop) s))
        | Some (Worker _) => Terminated
        end
      else Ok (set_owner OIdle s)
  end.

(** ** Calls of the public interface by the owning thread *)

Inductive op :=
| OpSetPaused (b : bool)
| OpAddTask (c : task)
| OpWaitForTasks
| OpReset (threadsCount : Z)
| OpDestroy.

(** The variadic overload (lines 91-100) hands the one-argument overload a
    closure that holds copies of the callable and of the arguments. *)
Definition OpAddTaskArgs (f : nat) (args : list Z) : op := OpAddTask (Task f args).

Definition entry (o : op) : opc :=
  match o with
  | OpSetPaused b => OSetPaused b
  | OpAddTask c => OAddInc c
  | OpWaitForTasks => OWait WUser
  | OpReset k => OResetLoad k
  | OpDestroy => OWait (WTeardown TDtor)
  end.

Definition call (o : op) (s : pool) : result pool :=
  match owner s with
  | OIdle => Ok (set_owner (entry o) s)
  | _ => Blocked
  end.

(** ** [addTask] called from other client threads *)

(** Line 84 of a concurrent call. *)
Definition submit_inc (c : task) (s : pool) : result pool :=
  Ok (set_submitting (submitting s ++ [c])
        (set_total (size_inc (m_tasksTotalCount s)) s)).

(** Lines 86-87 of the [j]-th concurrent call in progress. *)
Definition submit_push (j : nat) (s : pool) : result pool :=
  match submitting s !! j with
  | Some c => Ok (set_submitting (delete j (submitting s))
                    (set_tasks (m_tasks s ++ [c]) s))
  | None => Blocked
  end.

(** ** Interleavings *)

Inductive label :=
| LCall (o : op)         (* the owner enters a public method *)
| LOwner                 (* the owner executes its next step *)
| LWorker (i : nat)      (* the worker held by m_threads[i] executes its next step *)
| LSubmit (c : task)     (* another thread enters addTask(c) and executes line 84 *)
| LSubmitPush (j : nat). (* a concurrent addTask executes lines 86-87 *)

(** Once the destructor has returned there is no pool to act on. *)
Definition exec (l : label) (s : pool) : result pool :=
  match owner s with
  | ODestroyed => Blocked
  | _ =>
      match l with
      | LCall o => call o s
      | LOwner => owner_step s
      | LWorker i => worker i s
      | LSubmit c => submit_inc c s
      | LSubmitPush j => submit_push j s
      end
  end.

Fixpoint run (sched : list label) (s : pool) : result pool :=
  match sched with
  | [] => Ok s
  | l :: rest =>
      match exec l s with
      | Ok s' => run rest s'
      | r => r
      end
  end.

(** The constructor (lines 41-46): the member initialisers, with the owner
    about to run [createThreads]. *)
Definition construct (threadsCount : Z) : pool :=
  {| m_tasks := [];
     m_threads := replicate (Z.to_nat (fallback threadsCount)) NotAThread;
     m_threadsCount := fallback threadsCount;
     m_tasksTotalCount := 0;
     m_running := true;
     m_paused := false;
     owner := OCreate BCtor 0;
     submitting := [];
     executed := [] |}.

Definition reachable (s : pool) : Prop :=
  exists threadsCount sched,
    0 <= threadsCount < modulus P /\ run sched (construct threadsCount) = Ok s.

End Model.

(** ** Workers and schedules *)

(** The tasks held by workers that have dequeued them and not yet called
    them. *)
Definition dequeued (th : thread) : list task :=
  match th with Worker (WRun c) => [c] | _ => [] end.

Definition in_flight (s : pool) : list task := concat (map dequeued (m_threads s)).

(** A worker that is not between its pause check and the decrement that
    ends the task it took: it holds no task and is not about to take one. *)
Definition before_pause_check (th : thread) : bool :=
  match th with
  | Worker WPop | Worker (WRun _) | Worker WDec => false
  | _ => true
  end.

Definition settled (th : thread) : Prop := before_pause_check th = true.

(** A worker that has read [m_paused] as false and has not called
    [popTask] yet. *)
Definition past_pause_check (th : thread) : bool :=
  match th with Worker WPop => true | _ => false end.

Definition no_worker_past_check (v : list thread) : Prop :=
  forallb (fun th => negb (past_pause_check th)) v = true.

(** What a worker's handle is once the worker has left its loop. *)
Definition retired (th : thread) : thread :=
  match th with NotAThread => NotAThread | Worker _ => Worker WDone end.

(** Schedules in which the owner makes no call, so that [OIdle] at their
    end is the return from the call before them. *)
Definition is_call (l : label) : bool :=
  match l with LCall _ => true | _ => false end.

Definition no_calls (sched : list label) : Prop :=
  forallb (fun l => negb (is_call l)) sched = true.

(** Schedules in which the owner does nothing: only workers and other
    client threads run. *)
Definition is_owner_label (l : label) : bool :=
  match l with LCall _ | LOwner => true | _ => false end.

Definition owner_rests (sched : list label) : Prop :=
  forallb (fun l => negb (is_owner_label l)) sched = true.

(** ** The claims that the code does not meet as worded *)

(** "Whenever waitForTasks() returns": the owner's step out of the loop of
    lines 104-121, from one of the two tests that can [break]. *)
Definition wait_returns (P : platform) (w : waiter) (s s' : pool) : Prop :=
  (owner s = OWaitTotal w \/ exists v, owner s = OWaitRunning2 w v) /\
  exec P LOwner s = Ok s' /\ owner s' = after_wait w.

(** Quiescence of the pool itself at the moment [waitForTasks] returns. *)
Definition quiescent_on_return (P : platform) : Prop :=
  forall w s s', reachable P s -> wait_returns P w s s' ->
    (m_paused s' = false -> getTasksTotalCount s' = 0) /\
    (m_paused s' = true -> running_now P s' = 0).

(** No queued task is called once destruction of a paused pool has begun. *)
Definition paused_destruction_runs_nothing (P : platform) : Prop :=
  forall s sched s', reachable P s -> owner s = OIdle -> m_paused s = true ->
    m_tasks s <> [] ->
    run P (LCall OpDestroy :: sched) s = Ok s' ->
    exists ran, executed s' = ran ++ executed s /\
                forall c, In c (m_tasks s) -> ~ In c ran.

(** The queue on return from [reset] still starts with the queue at the
    call. *)
Definition reset_keeps_queue (P : platform) : Prop :=
  forall s k sched s', reachable P s -> owner s = OIdle ->
    no_calls sched ->
    run P (LCall (OpReset k) :: sched) s = Ok s' -> owner s' = OIdle ->
    exists added, m_tasks s' = m_tasks s ++ added.

(** No worker step dequeues or calls a task while [m_paused] is set. *)
Definition paused_workers_inert (P : platform) : Prop :=
  forall s i s', reachable P s -> m_paused s = true ->
    exec P (LWorker i) s = Ok s' ->
    m_tasks s' = m_tasks s /\ executed s' = executed s.

(** ** What a call leaves behind *)

(** The pool [s'] after [addTask(c)] on the pool [s], field by field: the
    task is at the tail of the queue, the counter is one more in
    [size_t], and nothing else has changed. *)
Definition task_added (P : platform) (c : task) (s s' : pool) : Prop :=
  m_tasks s' = m_tasks s ++ [c] /\
  m_tasksTotalCount s' = (m_tasksTotalCount s + 1) mod 2 ^ size_bits P /\
  m_threads s' = m_threads s /\ m_threadsCount s' = m_threadsCount s /\
  m_running s' = m_running s /\ m_paused s' = m_paused s /\
  owner s' = owner s /\ submitting s' = submitting s /\
  executed s' = executed s.

(** ** Invariants *)

(** A worker holding a task it has dequeued and not yet accounted for. *)
Definition busy (th : thread) : Z :=
  match th with
  | Worker (WRun _) | Worker WDec => 1
  | _ => 0
  end.

Definition busy_workers (v : list thread) : Z :=
  foldr (fun th n => busy th + n) 0 v.

(** An [addTask] of the owner between line 84 and line 87. *)
Definition adding (pc : opc) : Z :=
  match pc with OAddPush _ => 1 | _ => 0 end.

(** Every task submitted and not yet completed: queued, held by a worker,
    or counted by an [addTask] that has not pushed it yet. *)
Definition outstanding (s : pool) : Z :=
  Z.of_nat (length (m_tasks s)) + busy_workers (m_threads s)
  + Z.of_nat (length (submitting s)) + adding (owner s).

Definition counter_inv (P : platform) (s : pool) : Prop :=
  m_tasksTotalCount s = wrap P (outstanding s).

(** Only the owner writes [m_paused], so its position fixes the flag. *)
Definition flags_inv (s : pool) : Prop :=
  match owner s with
  | OWaitTotal _ | OResetRun _ _ | OCreate _ _ => m_paused s = false
  | OWaitRunning _ | OWaitRunning2 _ _ => m_paused s = true
  | _ => True
  end.

(** The first operand sampled by [getTasksRunningCount] inside
    [waitForTasks] was read from an earlier state of the pool. *)
Definition first_sample (P : platform) (s : pool) : Z :=
  if minuend_first P then m_tasksTotalCount s else getTasksQueuedCount s.

Definition sample_inv (P : platform) (s : pool) : Prop :=
  match owner s with
  | OWaitRunning2 w v =>
      exists s0, reachable P s0 /\ owner s0 = OWaitRunning w /\ v = first_sample P s0
  | _ => True
  end.

(** The positions of the owner inside [reset] and just after it, with the
    flag they imply. *)
Definition reset_inv (s : pool) : Prop :=
  match owner s with
  | OIdle | OResetRun _ _ | OCreate (BReset _ _) _ => m_paused s = false
  | OResetLoad _ | OResetPause _ _
  | OWait (WTeardown (TReset _ _)) | OWaitTotal (WTeardown (TReset _ _))
  | OWaitRunning (WTeardown (TReset _ _))
  | OWaitRunning2 (WTeardown (TReset _ _)) _
  | OWaitYield (WTeardown (TReset _ _))
  | OStop (TReset _ _) | OJoin (TReset _ _) _
  | OResetCount _ _ | OResetThreads _ _ | OResetUnpause _ _ => True
  | _ => False
  end.

(** [m_threads] holds [m_threadsCount] threads, except between lines 132
    and 136 of [reset], where the vector has as many as the argument
    says and the count is the fallback-adjusted one. *)
Definition shape_inv (P : platform) (s : pool) : Prop :=
  match owner s with
  | OResetThreads k _ => m_threadsCount s = fallback P k
  | OResetUnpause k _ | OResetRun k _ =>
      m_threadsCount s = fallback P k /\ length (m_threads s) = Z.to_nat k
  | OCreate (BReset k _) i =>
      m_threadsCount s = fallback P k /\ length (m_threads s) = Z.to_nat k /\
      (Z.to_nat i <= length (m_threads s))%nat /\ 0 <= i
  | OCreate BCtor i =>
      length (m_threads s) = Z.to_nat (m_threadsCount s) /\ 0 <= i
  | _ => length (m_threads s) = Z.to_nat (m_threadsCount s)
  end.

(** ** The stop-and-join phase *)

(** The positions of the owner, in a pool that is paused, from the call
    of [reset] or of the destructor to the last step before [m_paused] is
    cleared (line 134), or to the end of the destructor.  Line 126 reads
    the flag of a paused pool as true. *)
Definition tearing_down (d : teardown) (pc : opc) : Prop :=
  match pc with
  | OResetLoad k => TReset k true = d
  | OResetPause k wp => TReset k wp = d
  | OWait (WTeardown d') | OWaitRunning (WTeardown d')
  | OWaitRunning2 (WTeardown d') _ | OWaitYield (WTeardown d')
  | OStop d' | OJoin d' _ => d' = d
  | OResetCount k wp | OResetThreads k wp | OResetUnpause k wp => TReset k wp = d
  | ODestroyed => TDtor = d
  | _ => False
  end.

Definition drain_inv (d : teardown) (s : pool) : Prop :=
  tearing_down d (owner s) /\ m_paused s = true /\
  no_worker_past_check (m_threads s).

(** The positions of the owner from line 135 of [reset] on, and in the
    constructor. *)
Definition restarted (pc : opc) : Prop :=
  match pc with
  | OResetRun _ _ | OCreate _ _ | OIdle => True
  | _ => False
  end.

(** The positions of the owner inside [reset] (lines 126-136). *)
Definition in_reset (pc : opc) : bool :=
  match pc with
  | OResetLoad _ | OResetPause _ _
  | OWait (WTeardown (TReset _ _)) | OWaitTotal (WTeardown (TReset _ _))
  | OWaitRunning (WTeardown (TReset _ _))
  | OWaitRunning2 (WTeardown (TReset _ _)) _
  | OWaitYield (WTeardown (TReset _ _))
  | OStop (TReset _ _) | OJoin (TReset _ _) _
  | OResetCount _ _ | OResetThreads _ _ | OResetUnpause _ _
  | OResetRun _ _ | OCreate (BReset _ _) _ => true
  | _ => false
  end.

(** What one step does to the queue, the call log and the tasks held by
    workers. *)
Inductive effect (s s' : pool) : Prop :=
| Quiet :
    m_tasks s' = m_tasks s -> executed s' = executed s ->
    in_flight s' ≡ₚ in_flight s -> effect s s'
| Pushed (c : task) :
    m_tasks s' = m_tasks s ++ [c] -> executed s' = executed s ->
    in_flight s' ≡ₚ in_flight s -> effect s s'
| Popped (c : task) (i : nat) :
    m_threads s !! i = Some (Worker WPop) ->
    m_tasks s = c :: m_tasks s' -> executed s' = executed s ->
    in_flight s' ≡ₚ c :: in_flight s -> effect s s'
| Called (c : task) :
    m_tasks s' = m_tasks s -> executed s' = c :: executed s ->
    in_flight s ≡ₚ c :: in_flight s' -> effect s s'.

(** ** Fair continuations *)

(** [s'] can be reached from [s] by steps of the threads, the owner making
    no further call. *)
Definition leads (P : platform) (s s' : pool) : Prop :=
  exists sched, no_calls sched /\ run P sched s = Ok s'.

(** What steps of worker [i] alone leave as it is. *)
Definition only_worker (i : nat) (s s' : pool) : Prop :=
  m_paused s' = m_paused s /\ m_running s' = m_running s /\
  owner s' = owner s /\ submitting s' = submitting s /\
  m_threadsCount s' = m_threadsCount s /\
  length (m_threads s') = length (m_threads s) /\
  forall j, j <> i -> m_threads s' !! j = m_threads s !! j.

(** The positions a worker step can lead to. *)
Definition wpc_next (s : pool) (pc pc' : wpc) : Prop :=
  match pc with
  | WLoop => pc' = if m_running s then WCheckPaused else WDone
  | WCheckPaused => pc' = if m_paused s then WYield else WPop
  | WPop => pc' = WYield \/ exists c, pc' = WRun c
  | WRun _ => pc' = WDec
  | WDec | WYield => pc' = WLoop
  | WDone => False
  end.

(** What steps of the workers leave as it is. *)
Definition workers_frame (s s' : pool) : Prop :=
  m_paused s' = m_paused s /\ m_running s' = m_running s /\
  owner s' = owner s /\ submitting s' = submitting s /\
  m_threadsCount s' = m_threadsCount s /\
  length (m_threads s') = length (m_threads s).

(** What joining and creating threads leaves as it is. *)
Definition threads_frame (s s' : pool) : Prop :=
  m_tasks s' = m_tasks s /\ m_tasksTotalCount s' = m_tasksTotalCount s /\
  executed s' = executed s /\ submitting s' = submitting s /\
  m_paused s' = m_paused s /\ m_running s' = m_running s /\
  m_threadsCount s' = m_threadsCount s /\
  length (m_threads s') = length (m_threads s).

(** ** Scenarios *)

Definition job (n : nat) : task := Task n [].

(** The constructor's [createThreads] for a pool of one worker: the thread
    is created, then the loop is left. *)
Definition started : list label := [LOwner; LOwner].

(** The owner calls a method and executes [n] steps of it. *)
Definition owner_calls (o : op) (n : nat) : list label :=
  LCall o :: repeat LOwner n.

(** Worker 0 reads [m_running] and then [m_paused], both before the owner
    pauses the pool and submits a task: the pool is paused, the task is
    queued, and the worker stands at line 179 about to call [popTask]. *)
Definition raced : list label :=
  started ++ [LWorker 0%nat; LWorker 0%nat]
  ++ owner_calls (OpSetPaused true) 1 ++ owner_calls (OpAddTask (job 1)) 2.

Definition raced_pool : pool :=
  {| m_tasks := [job 1]; m_threads := [Worker WPop]; m_threadsCount := 1;
     m_tasksTotalCount := 1; m_running := true; m_paused := true;
     owner := OIdle; submitting := []; executed := [] |}.

(** The destructor on [raced_pool]: [waitForTasks] samples counter 1 and
    queue length 1 and returns, line 51 clears [m_running], and while the
    owner waits in [join] the worker dequeues the task, calls it,
    decrements the counter and leaves its loop; the join then completes. *)
Definition destroy_raced : list label :=
  repeat LOwner 4 ++ repeat (LWorker 0%nat) 4 ++ repeat LOwner 2.

Definition destroyed_raced_pool : pool :=
  {| m_tasks := []; m_threads := [NotAThread]; m_threadsCount := 1;
     m_tasksTotalCount := 0; m_running := false; m_paused := true;
     owner := ODestroyed; submitting := []; executed := [job 1] |}.

(** A paused pool of one worker with one task queued and the worker at
    the head of its loop. *)
Definition paused_one : list label :=
  started ++ owner_calls (OpSetPaused true) 1 ++ owner_calls (OpAddTask (job 1)) 2.

Definition paused_one_pool : pool :=
  {| m_tasks := [job 1]; m_threads := [Worker WLoop]; m_threadsCount := 1;
     m_tasksTotalCount := 1; m_running := true; m_paused := true;
     owner := OIdle; submitting := []; executed := [] |}.

(** [addTask(job 2)] on [paused_one_pool]. *)
Definition paused_two_pool : pool :=
  {| m_tasks := [job 1; job 2]; m_threads := [Worker WLoop]; m_threadsCount := 1;
     m_tasksTotalCount := 2; m_running := true; m_paused := true;
     owner := OIdle; submitting := []; executed := [] |}.

(** [reset(2)] on [paused_one_pool], after the call: lines 126-129, the old
    worker leaves its loop and is joined, lines 132-135, thread 0 is
    created and runs as far as [popTask] before thread 1 is created and
    [createThreads] returns. *)
Definition reset_two : list label :=
  repeat LOwner 6 ++ [LWorker 0%nat; LOwner; LOwner] ++ repeat LOwner 5
  ++ repeat (LWorker 0%nat) 3 ++ [LOwner; LOwner].

Definition reset_two_pool : pool :=
  {| m_tasks := []; m_threads := [Worker (WRun (job 1)); Worker WLoop];
     m_threadsCount := 2; m_tasksTotalCount := 1; m_running := true;
     m_paused := false; owner := OIdle; submitting := []; executed := [] |}.

(** The two halves of [reset_two]: up to the return of [joinThreads]
    (line 130), and from there to the return of [reset]. *)
Definition reset_two_join : list label :=
  repeat LOwner 6 ++ [LWorker 0%nat; LOwner; LOwner].

Definition reset_two_rebuild : list label :=
  repeat LOwner 5 ++ repeat (LWorker 0%nat) 3 ++ [LOwner; LOwner].

Definition joined_one_pool : pool :=
  {| m_tasks := [job 1]; m_threads := [NotAThread]; m_threadsCount := 1;
     m_tasksTotalCount := 1; m_running := false; m_paused := true;
     owner := OResetCount 2 true; submitting := []; executed := [] |}.

(** [reset(0)] on a fresh pool of one worker, after the call, up to the
    first iteration of [createThreads]. *)
Definition reset_zero : list label :=
  repeat LOwner 6 ++ [LWorker 0%nat; LOwner; LOwner] ++ repeat LOwner 4.

Definition reset_zero_pool : pool :=
  {| m_tasks := []; m_threads := []; m_threadsCount := 4;
     m_tasksTotalCount := 0; m_running := true; m_paused := false;
     owner := OCreate (BReset 0 false) 0; submitting := []; executed := [] |}.

(** A worker holds task 1; the owner pauses the pool and calls
    [waitForTasks], which samples the counter (1); another thread submits
    task 2; [waitForTasks] is about to sample the queue length (1). *)
Definition skewed : list label :=
  started ++ owner_calls (OpAddTask (job 1)) 2 ++ repeat (LWorker 0%nat) 3
  ++ owner_calls (OpSetPaused true) 1 ++ owner_calls OpWaitForTasks 2
  ++ [LSubmit (job 2); LSubmitPush 0%nat].

Definition skewed_pool (pc : opc) : pool :=
  {| m_tasks := [job 2]; m_threads := [Worker (WRun (job 1))];
     m_threadsCount := 1; m_tasksTotalCount := 2; m_running := true;
     m_paused := true; owner := pc; submitting := []; executed := [] |}.

(** The destructor on [paused_one_pool], after the call: [waitForTasks]
    returns, line 51, the worker leaves its loop and is joined. *)
Definition destroy_paused_one : list label :=
  repeat LOwner 4 ++ [LWorker 0%nat; LOwner; LOwner].

Definition destroyed_paused_one_pool : pool :=
  {| m_tasks := [job 1]; m_threads := [NotAThread]; m_threadsCount := 1;
     m_tasksTotalCount := 1; m_running := false; m_paused := true;
     owner := ODestroyed; submitting := []; executed := [] |}.

(** As [raced], and then the owner calls [waitForTasks], which samples the
    queue length (1) first on a platform that evaluates the subtrahend
    first; the worker dequeues task 1; [waitForTasks] is about to sample
    the counter (1). *)
Definition skewed_rtl : list label :=
  raced ++ owner_calls OpWaitForTasks 2 ++ [LWorker 0%nat].

Definition skewed_rtl_pool (pc : opc) : pool :=
  {| m_tasks := []; m_threads := [Worker (WRun (job 1))];
     m_threadsCount := 1; m_tasksTotalCount := 1; m_running := true;
     m_paused := true; owner := pc; submitting := []; executed := [] |}.

(** ** The repository's test [checkThreadPoolPausing], for one worker *)

(** What the test reads after each phase: [getTasksTotalCount()],
    [getTasksRunningCount()] and [getTasksQueuedCount()], with nothing
    running in between. *)
Definition counts (P : platform) (r : result pool) : option (Z * Z * Z) :=
  match r with
  | Ok s => Some (getTasksTotalCount s, running_now P s, getTasksQueuedCount s)
  | _ => None
  end.

(** Lines 112-122 of the test: pause, then submit three tasks. *)
Definition pausing_1 : list label :=
  started ++ owner_calls (OpSetPaused true) 1
  ++ owner_calls (OpAddTask (job 1)) 2 ++ owner_calls (OpAddTask (job 2)) 2
  ++ owner_calls (OpAddTask (job 3)) 2.

(** Line 129: the worker goes twice round its loop. *)
Definition pausing_2 : list label := pausing_1 ++ repeat (LWorker 0%nat) 6.

(** Lines 135-136: resume; the worker completes task 1 and has dequeued
    task 2. *)
Definition pausing_3 : list label :=
  pausing_2 ++ owner_calls (OpSetPaused false) 1 ++ repeat (LWorker 0%nat) 8.

(** Lines 142-143: pause and wait; the first round of [waitForTasks] finds
    task 2 running, the worker completes it, the second round returns. *)
Definition pausing_4 : list label :=
  pausing_3 ++ owner_calls (OpSetPaused true) 1 ++ owner_calls OpWaitForTasks 4
  ++ repeat (LWorker 0%nat) 2 ++ repeat LOwner 3.

(** Line 149: the worker goes twice round its loop. *)
Definition pausing_5 : list label := pausing_4 ++ repeat (LWorker 0%nat) 6.

(** Lines 155-156: resume and wait; the worker completes task 3. *)
Definition pausing_6 : list label :=
  pausing_5 ++ owner_calls (OpSetPaused false) 1 ++ owner_calls OpWaitForTasks 3
  ++ repeat (LWorker 0%nat) 5 ++ repeat LOwner 2.

(** ** A wrapped running count inside [waitForTasks] *)

(** The pool is paused and empty; [waitForTasks] samples the counter (0);
    another thread submits task 1; [waitForTasks] samples the queue
    length (1) and computes the running count. *)
Definition borrowed : list label :=
  started ++ owner_calls (OpSetPaused true) 1 ++ owner_calls OpWaitForTasks 2
  ++ [LSubmit (job 1); LSubmitPush 0%nat].

(** * Further properties of the code *)

(** ** The life of the worker threads *)

(** A thread slot that holds a worker still inside its loop. *)
Definition live (th : thread) : Prop :=
  match th with
  | NotAThread => False
  | Worker pc => pc <> WDone
  end.

Definition joined (th : thread) : Prop := th = NotAThread.

(** The positions of the owner at which the pool serves: outside every
    call, in [setPaused], [addTask] or [waitForTasks], or in [reset] or the
    destructor before line 129 or line 51 has cleared [m_running]. *)
Definition serving (pc : opc) : bool :=
  match pc with
  | OIdle | OSetPaused _ | OAddInc _ | OAddPush _
  | OWait _ | OWaitTotal _ | OWaitRunning _ | OWaitRunning2 _ _ | OWaitYield _
  | OResetLoad _ | OResetPause _ _ | OStop _ => true
  | _ => false
  end.

(** What the owner's position says about [m_running] and the thread
    slots: all workers are in their loops while the pool serves;
    [joinThreads] leaves joined slots behind its index and joinable ones
    ahead; the vector holds no thread between the join and
    [createThreads]; [createThreads] leaves workers behind its index and
    empty slots ahead. *)
Definition life_inv (s : pool) : Prop :=
  match owner s with
  | OJoin _ i =>
      m_running s = false /\ 0 <= i /\
      forall j th, m_threads s !! j = Some th ->
        ((j < Z.to_nat i)%nat -> joined th) /\
        ((Z.to_nat i <= j)%nat -> joinable th = true)
  | OResetCount _ _ | OResetThreads _ _ | OResetUnpause _ _ | OResetRun _ _
  | ODestroyed =>
      m_running s = false /\ Forall joined (m_threads s)
  | OCreate _ i =>
      m_running s = true /\ 0 <= i /\
      forall j th, m_threads s !! j = Some th ->
        ((j < Z.to_nat i)%nat -> live th) /\
        ((Z.to_nat i <= j)%nat -> joined th)
  | _ => m_running s = true /\ Forall live (m_threads s)
  end.

(** ** What [reset(k)] leaves behind *)

(** The positions of the owner inside [reset(k)] and on its return, with
    what lines 132 and 133 have established by then. *)
Definition reset_k_inv (P : platform) (k : Z) (s : pool) : Prop :=
  match owner s with
  | OResetLoad k' | OResetPause k' _ | OResetCount k' _
  | OWait (WTeardown (TReset k' _)) | OWaitTotal (WTeardown (TReset k' _))
  | OWaitRunning (WTeardown (TReset k' _))
  | OWaitRunning2 (WTeardown (TReset k' _)) _
  | OWaitYield (WTeardown (TReset k' _))
  | OStop (TReset k' _) | OJoin (TReset k' _) _ => k' = k
  | OResetThreads k' _ => k' = k /\ m_threadsCount s = fallback P k
  | OResetUnpause k' _ | OResetRun k' _ | OCreate (BReset k' _) _ =>
      k' = k /\ m_threadsCount s = fallback P k /\
      length (m_threads s) = Z.to_nat k
  | OIdle =>
      m_threadsCount s = fallback P k /\ length (m_threads s) = Z.to_nat k
  | _ => False
  end.

(** ** The constructor *)

(** The pool the constructor leaves when nothing else runs meanwhile:
    [n] workers at the head of their loops and nothing submitted. *)
Definition fresh_pool (P : platform) (threadsCount : Z) : pool :=
  {| m_tasks := [];
     m_threads := replicate (Z.to_nat (fallback P threadsCount)) (Worker WLoop);
     m_threadsCount := fallback P threadsCount;
     m_tasksTotalCount := 0;
     m_running := true;
     m_paused := false;
     owner := OIdle;
     submitting := [];
     executed := [] |}.

(** The member initialisers of the constructor (lines 42-43): the
    vector of the fallback-adjusted count is built, which throws
    [std::length_error] above [max_size()]; otherwise the owner is about
    to run [createThreads]. *)
Definition ThreadPool (P : platform) (threadsCount : Z) : result pool :=
  if max_size P <? fallback P threadsCount then Thrown
  else Ok (construct P threadsCount).

(** The threads that exist while the constructor runs: the owner and the
    workers it has started. *)
Definition during_construction (l : label) : bool :=
  match l with LOwner | LWorker _ => true | _ => false end.

(** A thread that holds no task and has not left its loop. *)
Definition waiting_for_work (th : thread) : Prop :=
  match th with
  | Worker (WRun _) | Worker WDec | Worker WDone => False
  | _ => True
  end.

(** What holds of the pool from the member initialisers to the return of
    the constructor. *)
Definition ctor_inv (P : platform) (k : Z) (s : pool) : Prop :=
  m_threadsCount s = fallback P k /\ m_paused s = false /\
  m_running s = true /\ m_tasks s = [] /\ m_tasksTotalCount s = 0 /\
  executed s = [] /\ submitting s = [] /\
  match owner s with OIdle | OCreate BCtor _ => True | _ => False end /\
  Forall waiting_for_work (m_threads s).

(** The constructor in the middle of [createThreads]: [i] threads
    created, [m] still to create. *)
Definition building (c : Z) (i m : nat) : pool :=
  {| m_tasks := [];
     m_threads := replicate i (Worker WLoop) ++ replicate m NotAThread;
     m_threadsCount := c;
     m_tasksTotalCount := 0;
     m_running := true;
     m_paused := false;
     owner := OCreate BCtor (Z.of_nat i);
     submitting := [];
     executed := [] |}.

(** ** Running a task *)

(** The pool after worker [i] has taken the task at the head of the queue
    through lines 179-182: the task is called and the counter is
    decremented. *)
Definition task_done (P : platform) (i : nat) (c : task) (q : list task)
    (s : pool) : pool :=
  set_thread i (Worker WLoop)
    (set_total (size_dec P (m_tasksTotalCount s)) (log_call c (set_tasks q s))).

(** ** A pool without workers *)

(** The positions of [waitForTasks] on the path taken while the pool is
    not paused (lines 104-111 and 119). *)
Definition in_wait_loop (w : waiter) (pc : opc) : Prop :=
  pc = OWait w \/ pc = OWaitTotal w \/ pc = OWaitYield w.

(** A platform on which [std::thread::hardware_concurrency()] returns 0,
    as it may when the value is not computable. *)
Definition x64_no_hint : platform :=
  {| size_bits := 64; hardware_concurrency := 0; minuend_first := true;
     max_size := 2 ^ 60 - 1 |}.

(** ** Order of execution *)

Definition is_reset (l : label) : bool :=
  match l with LCall (OpReset _) => true | _ => false end.

Definition no_resets (sched : list label) : Prop :=
  forallb (fun l => negb (is_reset l)) sched = true.

(** The tasks in the order the pool has taken them up: those called,
    oldest first, those held by workers, those queued. *)
Definition timeline (s : pool) : list task :=
  rev (executed s) ++ in_flight s ++ m_tasks s.

(** ** Further scenarios *)

(** A pool of one worker with one task queued, not paused. *)
Definition busy_one : list label :=
  started ++ owner_calls (OpAddTask (job 1)) 2.

Definition busy_one_pool : pool :=
  {| m_tasks := [job 1]; m_threads := [Worker WLoop]; m_threadsCount := 1;
     m_tasksTotalCount := 1; m_running := true; m_paused := false;
     owner := OIdle; submitting := []; executed := [] |}.


Definition drained_one_pool (pc : opc) : pool :=
  {| m_tasks := []; m_threads := [Worker WLoop]; m_threadsCount := 1;
     m_tasksTotalCount := 0; m_running := true; m_paused := false;
     owner := pc; submitting := []; executed := [job 1] |}.

(** The worker of [busy_one_pool] has called the task and stands at the
    decrement of line 182. *)
Definition called_one_pool : pool :=
  {| m_tasks := []; m_threads := [Worker WDec]; m_threadsCount := 1;
     m_tasksTotalCount := 1; m_running := true; m_paused := false;
     owner := OIdle; submitting := []; executed := [job 1] |}.

(** A second task is submitted to [busy_one_pool] and the worker runs
    the first. *)
Definition second_task : list label :=
  owner_calls (OpAddTask (job 2)) 2 ++ repeat (LWorker 0%nat) 5.

Definition second_task_pool : pool :=
  {| m_tasks := [job 2]; m_threads := [Worker WLoop]; m_threadsCount := 1;
     m_tasksTotalCount := 1; m_running := true; m_paused := false;
     owner := OIdle; submitting := []; executed := [job 1] |}.

(** [ThreadPool pool(0)] where the platform gives no hint: no worker is
    created; one task is submitted and [waitForTasks] is called. *)
Definition stranded : list label :=
  LOwner :: owner_calls (OpAddTask (job 1)) 2 ++ [LCall OpWaitForTasks].

Definition stranded_pool (q : list task) : pool :=
  {| m_tasks := q; m_threads := []; m_threadsCount := 0;
     m_tasksTotalCount := Z.of_nat (length q); m_running := true;
     m_paused := false; owner := OWait WUser; submitting := [];
     executed := [] |}.

(** One round of [waitForTasks] while another thread submits task 2. *)
Definition spinning : list label :=
  repeat LOwner 3 ++ [LSubmit (job 2); LSubmitPush 0%nat].

(** * Proofs *)

(** Case analysis on the innermost scrutinee of [H], keeping the equation. *)
Ltac break_match H :=
  match type of H with
  | context [match ?x with _ => _ end] =>
      lazymatch x with
      | context [match _ with _ => _ end] => fail
      | _ => idtac
      end;
      destruct x eqn:?; cbv beta iota in H; try discriminate H
  end.

Ltac pool_simpl :=
  cbn [m_tasks m_threads m_threadsCount m_tasksTotalCount m_running m_paused
       owner submitting executed set_tasks set_threads set_threadsCount
       set_total set_running set_paused set_owner set_submitting log_call
       set_thread fst snd] in *.

(** Turn [H : exec P l s = Ok s'] into one goal per step the code can
    take, with [s'] replaced by what the step makes of [s]. *)
Ltac step_cases H :=
  unfold exec, call, owner_step, worker, submit_inc, submit_push, popTask in H;
  repeat break_match H;
  injection H as <-; pool_simpl;
  repeat match goal with
  | E : owner ?s = _ |- context [owner ?s] => rewrite E
  | E : m_tasks ?s = _ |- context [m_tasks ?s] => rewrite E
  end.

Section SizeT.
Variable P : platform.

Lemma wrap_small z : 0 <= z < modulus P -> wrap P z = z.
Proof. intros H. unfold wrap. now apply Z.mod_small. Qed.

Lemma size_inc_wrap z : size_inc P (wrap P z) = wrap P (z + 1).
Proof. unfold size_inc, wrap. now rewrite Zplus_mod_idemp_l. Qed.

Lemma size_dec_wrap z : size_dec P (wrap P z) = wrap P (z - 1).
Proof. unfold size_dec, wrap. now rewrite Zminus_mod_idemp_l. Qed.

Lemma size_sub_borrow a b :
  0 <= a < b -> b < modulus P -> size_sub P a b = a - b + modulus P.
Proof.
  intros Hab Hb. unfold size_sub, wrap.
  symmetry. apply (Zmod_unique _ _ (-1)); lia.
Qed.

(** C10: [getTasksRunningCount] subtracts the sampled queue length from
    the sampled counter in [size_t]; whenever the queue sample exceeds
    the counter sample the result is the difference plus [2^w]: it is
    neither 0 nor negative, it lies within [queued] of [2^w], and it is
    at least [2^(w-1)] unless the samples differ by more than that. *)
Theorem getTasksRunningCount_wraps (total queued : Z) :
  0 <= total -> total < queued -> queued < modulus P ->
  getTasksRunningCount P total queued = modulus P - (queued - total) /\
  getTasksRunningCount P total queued = (total - queued) mod 2 ^ size_bits P /\
  0 < getTasksRunningCount P total queued < modulus P /\
  modulus P - queued <= getTasksRunningCount P total queued /\
  (2 * (queued - total) <= modulus P ->
   modulus P <= 2 * getTasksRunningCount P total queued).
Proof.
  intros H0 Hlt Hq.
  assert (Hmod : getTasksRunningCount P total queued
                 = (total - queued) mod 2 ^ size_bits P) by reflexivity.
  unfold getTasksRunningCount in *.
  rewrite <- Hmod, size_sub_borrow by lia.
  repeat split; lia.
Qed.

End SizeT.

Section Steps.
Variable P : platform.

(** C7: on a non-empty queue [popTask] returns the head and leaves the
    rest, one element shorter; on an empty queue it returns the empty
    signal and leaves the queue as it was; and the worker's step that
    calls it is always enabled (the critical section is one step that
    waits for nothing), changing only the queue and that worker's own
    position. *)
Theorem popTask_head_or_empty (q : list task) :
  (q <> [] ->
   exists c, fst (popTask q) = Some c /\ head q = Some c /\
             q = c :: snd (popTask q) /\
             S (length (snd (popTask q))) = length q) /\
  (q = [] -> popTask q = (None, [])) /\
  (forall s i, m_tasks s = q -> owner s <> ODestroyed ->
     m_threads s !! i = Some (Worker WPop) ->
     exec P (LWorker i) s =
       Ok (set_thread i
             (Worker (match fst (popTask q) with
                      | Some c => WRun c
                      | None => WYield
                      end))
             (set_tasks (snd (popTask q)) s))).
Proof.
  split; [|split].
  - intros Hq. destruct q as [|c rest]; [congruence|].
    exists c. simpl. auto.
  - intros ->. reflexivity.
  - intros s i Hs Hown Hth. unfold exec, worker. rewrite Hth, Hs.
    destruct (owner s); try congruence; destruct q; reflexivity.
Qed.

Lemma pool_eta s :
  Pool (m_tasks s) (m_threads s) (m_threadsCount s) (m_tasksTotalCount s)
       (m_running s) (m_paused s) (owner s) (submitting s) (executed s) = s.
Proof. now destruct s. Qed.

Lemma delete_last_added {A} (l : list A) (x : A) : delete (length l) (l ++ [x]) = l.
Proof. induction l as [|y l IH]; simpl; [reflexivity|]. now rewrite IH. Qed.

(** C8: [addTask] cannot fail: from any pool whose owner is outside a
    call, the call and its two steps all succeed, and in the pool they
    leave the queue is the old queue with the task appended at its tail,
    the counter is the old counter plus one (in [size_t]: exactly one
    more below the maximum), and the threads, the thread count, both
    flags and everything else are as they were; the same for the closure
    built by the variadic overload, which holds the callable and the
    arguments, and for a call made by another thread. *)
Theorem addTask_effect (s : pool) (c : task) :
  owner s = OIdle ->
  (exists s',
     run P [LCall (OpAddTask c); LOwner; LOwner] s = Ok s' /\
     task_added P c s s') /\
  (forall f args, exists s',
     run P [LCall (OpAddTaskArgs f args); LOwner; LOwner] s = Ok s' /\
     task_added P (Task f args) s s' /\
     last (m_tasks s') = Some (Task f args)) /\
  (exists s',
     run P [LSubmit c; LSubmitPush (length (submitting s))] s = Ok s' /\
     task_added P c s s') /\
  (0 <= m_tasksTotalCount s -> m_tasksTotalCount s + 1 < 2 ^ size_bits P ->
   (m_tasksTotalCount s + 1) mod 2 ^ size_bits P = m_tasksTotalCount s + 1).
Proof.
  intros Hown.
  assert (Hcall : forall c', exists s',
    run P [LCall (OpAddTask c'); LOwner; LOwner] s = Ok s' /\
    task_added P c' s s').
  { intros c'. eexists. split.
    - simpl. unfold exec, call. rewrite Hown. simpl. reflexivity.
    - unfold task_added. pool_simpl. rewrite Hown. auto 10. }
  split; [apply Hcall|]. split; [|split].
  - intros f args. destruct (Hcall (Task f args)) as (s' & Hrun & Hadd).
    exists s'. split; [exact Hrun|]. split; [exact Hadd|].
    destruct Hadd as (-> & _). apply last_snoc.
  - exists (set_tasks (m_tasks s ++ [c])
              (set_total (size_inc P (m_tasksTotalCount s)) s)).
    split; [|unfold task_added; pool_simpl; auto 10].
    destruct s as [q th n tot r p o sub ex]; simpl in *; subst.
    unfold exec; simpl. unfold submit_push; simpl.
    rewrite list_lookup_middle by reflexivity.
    unfold set_submitting, set_tasks, set_total; simpl.
    now rewrite delete_last_added.
  - intros H0 H1. apply Z.mod_small. lia.
Qed.

(** While [m_paused] is set, a step of a worker that is not between its
    pause check and the end of a task it took changes nothing but that
    worker's position, which stays outside that stretch. *)
Lemma paused_worker_step (s s' : pool) (i : nat) (th : thread) :
  m_paused s = true ->
  m_threads s !! i = Some th -> before_pause_check th = true ->
  exec P (LWorker i) s = Ok s' ->
  m_tasks s' = m_tasks s /\ m_tasksTotalCount s' = m_tasksTotalCount s /\
  executed s' = executed s /\ m_paused s' = true /\
  m_running s' = m_running s /\ submitting s' = submitting s /\
  owner s' = owner s /\
  exists th', m_threads s' = <[i:=th']> (m_threads s) /\
              before_pause_check th' = true.
Proof.
  intros Hp Hth Hidle H.
  step_cases H; simplify_eq; simpl in *; try discriminate;
    repeat split; try assumption; try reflexivity; eexists; (split; [reflexivity|]);
    try reflexivity; try (rewrite Hp; reflexivity); destruct (m_running s); reflexivity.
Qed.

(** With every worker outside that stretch, steps of workers and of
    other clients keep the pool paused, the workers where they are
    allowed to be, and the call log as it is; the queue only grows. *)
Lemma frozen_step l s s' :
  is_owner_label l = false -> m_paused s = true ->
  Forall settled (m_threads s) -> exec P l s = Ok s' ->
  m_paused s' = true /\ Forall settled (m_threads s') /\
  executed s' = executed s /\
  (m_tasks s' = m_tasks s \/ exists c, m_tasks s' = m_tasks s ++ [c]).
Proof.
  intros Hl Hp Hset H. destruct l as [o| |i|c|j]; try discriminate.
  - destruct (m_threads s !! i) as [th|] eqn:Hth.
    + pose proof (proj1 (Forall_lookup _ _) Hset _ _ Hth) as Hsth.
      destruct (paused_worker_step _ _ _ _ Hp Hth Hsth H)
        as (Hq & _ & Hex & Hp' & _ & _ & _ & th' & Hv & Hth').
      rewrite Hv. repeat split; auto. now apply Forall_insert.
    + unfold exec, worker in H. rewrite Hth in H. destruct (owner s); discriminate.
  - step_cases H; pool_simpl; repeat split; eauto.
  - step_cases H; pool_simpl; repeat split; eauto.
Qed.

End Steps.

Section Invariants.
Variable P : platform.

Lemma run_app sched1 sched2 s :
  run P (sched1 ++ sched2) s =
  match run P sched1 s with Ok s1 => run P sched2 s1 | r => r end.
Proof.
  revert s. induction sched1 as [|l sched1 IH]; intros s; simpl; [reflexivity|].
  destruct (exec P l s); auto.
Qed.

(** A property that holds after construction and that every step keeps
    holds in every reachable state. *)
Lemma run_invariant (I : pool -> Prop) :
  (forall l s s', I s -> exec P l s = Ok s' -> I s') ->
  forall sched s s', I s -> run P sched s = Ok s' -> I s'.
Proof.
  intros Hstep sched. induction sched as [|l sched IH]; intros s s' Hs Hrun; simpl in Hrun.
  - now injection Hrun as <-.
  - destruct (exec P l s) as [s1| | | |] eqn:Hl; try discriminate. eauto.
Qed.

Lemma reachable_invariant (I : pool -> Prop) :
  (forall k, 0 <= k < modulus P -> I (construct P k)) ->
  (forall l s s', I s -> exec P l s = Ok s' -> I s') ->
  forall s, reachable P s -> I s.
Proof.
  intros H0 Hstep s (k & sched & Hk & Hrun).
  eapply run_invariant; eauto.
Qed.

Lemma reachable_step l s s' :
  reachable P s -> exec P l s = Ok s' -> reachable P s'.
Proof.
  intros (k & sched & Hk & Hrun) Hl. exists k, (sched ++ [l]). split; [assumption|].
  rewrite run_app, Hrun. simpl. now rewrite Hl.
Qed.

Lemma reachable_run sched s s' :
  reachable P s -> run P sched s = Ok s' -> reachable P s'.
Proof.
  intros (k & sched0 & Hk & Hrun) Hl. exists k, (sched0 ++ sched). split; [assumption|].
  now rewrite run_app, Hrun.
Qed.

Lemma busy_workers_nonneg v : 0 <= busy_workers v.
Proof.
  induction v as [|th v IH]; simpl; [lia|].
  destruct th as [|[]]; simpl; lia.
Qed.

Lemma busy_workers_insert v i th th' :
  v !! i = Some th ->
  busy_workers (<[i:=th']> v) = busy_workers v - busy th + busy th'.
Proof.
  revert i. induction v as [|x v IH]; intros [|i] H; simpl in *; try discriminate.
  - injection H as ->. lia.
  - rewrite (IH i H). lia.
Qed.

Lemma busy_workers_replicate n : busy_workers (replicate n NotAThread) = 0.
Proof. induction n; simpl; auto. Qed.

Lemma busy_workers_joined v : existsb joinable v = false -> busy_workers v = 0.
Proof.
  induction v as [|th v IH]; simpl; [reflexivity|].
  destruct th; simpl; [auto|discriminate].
Qed.

Lemma length_delete_lookup {A} (l : list A) j x :
  l !! j = Some x -> S (length (delete j l)) = length l.
Proof.
  revert j. induction l as [|y l IH]; intros [|j] H; simpl in *; try discriminate; auto.
Qed.

Lemma adding_entry o : adding (entry o) = 0.
Proof. now destruct o. Qed.

Lemma adding_after_wait w : adding (after_wait w) = 0.
Proof. now destruct w. Qed.

Lemma adding_after_join d : adding (after_join d) = 0.
Proof. now destruct d. Qed.

Lemma counter_inv_construct k : counter_inv P (construct P k).
Proof.
  unfold counter_inv, outstanding, construct; simpl.
  rewrite busy_workers_replicate. reflexivity.
Qed.

Lemma counter_inv_step l s s' :
  counter_inv P s -> exec P l s = Ok s' -> counter_inv P s'.
Proof.
  unfold counter_inv, outstanding. intros Hinv H.
  step_cases H; simpl in *;
    repeat match goal with
    | Hth : m_threads s !! _ = Some _ |- _ =>
        rewrite (busy_workers_insert _ _ _ _ Hth); clear Hth
    | Hsub : submitting s !! _ = Some _ |- _ =>
        apply length_delete_lookup in Hsub
    end;
    rewrite ?busy_workers_replicate, ?length_app, ?adding_entry,
      ?adding_after_wait, ?adding_after_join in *; simpl in *;
    rewrite ?Hinv, ?size_inc_wrap, ?size_dec_wrap;
    try match goal with
    | Hj : existsb joinable _ = false |- _ =>
        apply busy_workers_joined in Hj; rewrite Hj in *
    end;
    try (f_equal; simpl; lia).
Qed.

Lemma counter_inv_reachable s : reachable P s -> counter_inv P s.
Proof.
  apply reachable_invariant; [intros; apply counter_inv_construct|].
  intros; eapply counter_inv_step; eauto.
Qed.

(** C9: every step of the owner, of a worker and of a concurrent
    submitter keeps [m_tasksTotalCount] equal, in [size_t], to the number
    of outstanding tasks (queued, held by a worker, or counted by an
    [addTask] that has not pushed yet), of which the queued ones are a
    part; so in every reachable state whose outstanding tasks fit
    [size_t], the queue is no longer than the counter says and
    [getTasksRunningCount] on that state is the non-negative number of
    outstanding tasks that are not queued. *)
Theorem queued_le_total (s : pool) :
  reachable P s -> outstanding s < modulus P ->
  counter_inv P s /\
  (forall l s', exec P l s = Ok s' -> counter_inv P s') /\
  getTasksQueuedCount s <= outstanding s /\
  getTasksQueuedCount s <= getTasksTotalCount s /\
  running_now P s = getTasksTotalCount s - getTasksQueuedCount s /\
  0 <= running_now P s.
Proof.
  intros Hreach Hfit.
  pose proof (counter_inv_reachable _ Hreach) as Hinv.
  split; [assumption|].
  split; [intros; eapply counter_inv_step; eauto|].
  pose proof (busy_workers_nonneg (m_threads s)) as Hb.
  assert (Ha : 0 <= adding (owner s)) by (destruct (owner s); simpl; lia).
  unfold counter_inv in Hinv.
  unfold running_now, getTasksRunningCount, size_sub, getTasksTotalCount,
    getTasksQueuedCount in *.
  unfold outstanding in *.
  rewrite wrap_small in Hinv by lia.
  rewrite wrap_small by lia. lia.
Qed.

End Invariants.

Section Flags.
Variable P : platform.

Lemma run_invariant_no_calls (I : pool -> Prop) :
  (forall l s s', is_call l = false -> I s -> exec P l s = Ok s' -> I s') ->
  forall sched s s', no_calls sched -> I s -> run P sched s = Ok s' -> I s'.
Proof.
  intros Hstep sched. unfold no_calls.
  induction sched as [|l sched IH]; intros s s' Hnc Hs Hrun; simpl in *.
  - now injection Hrun as <-.
  - apply andb_prop in Hnc as [Hl Hnc]. apply negb_true_iff in Hl.
    destruct (exec P l s) as [s1| | | |] eqn:Hexec; try discriminate. eauto.
Qed.

Lemma flags_inv_step l s s' : flags_inv s -> exec P l s = Ok s' -> flags_inv s'.
Proof.
  unfold flags_inv. intros Hinv H.
  step_cases H; simpl in *; try rewrite Heqo in *; try assumption; try reflexivity;
    try match goal with
    | |- match entry ?o with _ => _ end => now destruct o
    | |- match after_wait ?w with _ => _ end => now destruct w
    | |- match after_join ?d with _ => _ end => now destruct d
    end; congruence.
Qed.

Lemma flags_inv_reachable s : reachable P s -> flags_inv s.
Proof.
  apply reachable_invariant; [reflexivity|].
  intros; eapply flags_inv_step; eauto.
Qed.

Lemma sample_inv_reachable s : reachable P s -> sample_inv P s.
Proof.
  intros Hr.
  enough (reachable P s /\ sample_inv P s) by tauto.
  revert s Hr. apply reachable_invariant.
  - intros k Hk. split; [|exact I]. exists k, []. auto.
  - intros l s s' [Hr Hinv] H. split; [eapply reachable_step; eauto|].
    unfold sample_inv in *.
    step_cases H; simpl in *; try rewrite Heqo in *; try assumption; try exact I;
      try match goal with
      | |- match entry ?o with _ => _ end => now destruct o
      | |- match after_wait ?w with _ => _ end => now destruct w
      | |- match after_join ?d with _ => _ end => now destruct d
      end.
    all: exists s; unfold first_sample; rewrite Heqb; auto.
Qed.

(** C2 (as amended): when [waitForTasks] returns, [m_paused] is what it
    read and the queue is as it was; if the flag is false, it returns
    from line 108 and the counter is 0 in the very state it returns in
    (so, the outstanding tasks fitting [size_t], nothing is queued or
    held either); if the flag is true, it returns from line 115 because
    the [size_t] difference of its two samples is 0, the first of them
    read in an earlier state, and the running count of the pool itself is
    0 at that moment provided the variable sampled first has not changed
    since. *)
Theorem waitForTasks_return_samples (w : waiter) (s s' : pool) :
  reachable P s -> wait_returns P w s s' ->
  m_paused s' = m_paused s /\ m_tasks s' = m_tasks s /\
  (m_paused s' = false ->
     owner s = OWaitTotal w /\ getTasksTotalCount s' = 0 /\
     (outstanding s' < modulus P ->
      m_tasks s' = [] /\ busy_workers (m_threads s') = 0)) /\
  (m_paused s' = true ->
     exists v s0, owner s = OWaitRunning2 w v /\
       reachable P s0 /\ owner s0 = OWaitRunning w /\ v = first_sample P s0 /\
       (if minuend_first P
        then getTasksRunningCount P v (getTasksQueuedCount s')
        else getTasksRunningCount P (getTasksTotalCount s') v) = 0 /\
       (v = first_sample P s' -> running_now P s' = 0)).
Proof.
  intros Hr (Hpc & Hexec & Hret).
  pose proof (flags_inv_reachable _ Hr) as Hf.
  pose proof (sample_inv_reachable _ Hr) as Hs.
  pose proof (counter_inv_reachable P _ (reachable_step P _ _ _ Hr Hexec)) as Hc.
  unfold flags_inv, sample_inv, counter_inv in *.
  destruct Hpc as [Hpc|[v Hpc]]; rewrite Hpc in *;
    unfold exec, owner_step in Hexec; rewrite Hpc in Hexec.
  - destruct (m_tasksTotalCount s =? 0) eqn:Htot;
      injection Hexec as <-; pool_simpl.
    + apply Z.eqb_eq in Htot. repeat split; try reflexivity.
      * assumption.
      * pose proof (busy_workers_nonneg (m_threads s)).
        unfold outstanding in *; pool_simpl.
        assert (0 <= adding (after_wait w)) by (destruct w; simpl; lia).
        rewrite wrap_small in Hc by lia.
        destruct (m_tasks s); [reflexivity|simpl in *; lia].
      * pose proof (busy_workers_nonneg (m_threads s)).
        unfold outstanding in *; pool_simpl.
        assert (0 <= adding (after_wait w)) by (destruct w; simpl; lia).
        rewrite wrap_small in Hc by lia. lia.
      * congruence.
    + destruct w; discriminate.
  - destruct Hs as (s0 & Hr0 & Hpc0 & Hv).
    match type of Hexec with
    | Ok (set_owner (if ?r =? 0 then _ else _) _) = _ => destruct (r =? 0) eqn:Hz
    end; injection Hexec as <-; pool_simpl.
    + apply Z.eqb_eq in Hz. repeat split; try reflexivity; try congruence.
      intros _. exists v, s0.
      unfold running_now, first_sample, getTasksTotalCount, getTasksQueuedCount in *.
      pool_simpl. repeat split; auto.
      intros Hsame. destruct (minuend_first P); congruence.
    + destruct w; discriminate.
Qed.

Lemma reset_inv_step l s s' :
  is_call l = false -> reset_inv s -> exec P l s = Ok s' -> reset_inv s'.
Proof.
  unfold reset_inv. intros Hl Hinv H.
  step_cases H; simpl in *; try discriminate; try rewrite Heqo in *;
    try assumption; try reflexivity; try contradiction;
    repeat match goal with
    | w : waiter |- _ => destruct w
    | d : teardown |- _ => destruct d
    | b : builder |- _ => destruct b
    end; simpl in *; try assumption; try reflexivity; try contradiction;
    congruence.
Qed.

(** C5: whatever [m_paused] was when [reset] was called, it is false
    when [reset] has returned (the owner is back outside every call, no
    other call having been made): line 126 records the old value, line
    127 and line 134 overwrite the flag, and nothing writes it back. *)
Theorem reset_clears_paused (s : pool) (k : Z) (sched : list label) (s' : pool) :
  owner s = OIdle -> no_calls sched ->
  run P (LCall (OpReset k) :: sched) s = Ok s' -> owner s' = OIdle ->
  m_paused s' = false.
Proof.
  intros Hown Hnc Hrun Hret. simpl in Hrun.
  unfold exec, call in Hrun. rewrite Hown in Hrun.
  assert (Hinv : reset_inv s').
  { eapply (run_invariant_no_calls reset_inv); eauto using reset_inv_step.
    unfold reset_inv. simpl. exact I. }
  unfold reset_inv in Hinv. now rewrite Hret in Hinv.
Qed.

End Flags.

Section Conservation.
Variable P : platform.

Lemma held_insert (v : list thread) i th th' :
  v !! i = Some th ->
  dequeued th' ++ concat (map dequeued v)
  ≡ₚ dequeued th ++ concat (map dequeued (<[i:=th']> v)).
Proof.
  revert i. induction v as [|x v IH]; intros [|i] H; simpl in *; try discriminate.
  - injection H as ->. apply Permutation_app_swap_app.
  - rewrite Permutation_app_swap_app, (IH i H). apply Permutation_app_swap_app.
Qed.

Lemma held_joined (v : list thread) :
  existsb joinable v = false -> concat (map dequeued v) = [].
Proof.
  induction v as [|th v IH]; simpl; [reflexivity|].
  destruct th; simpl; [auto|discriminate].
Qed.

Lemma held_replicate n : concat (map dequeued (replicate n NotAThread)) = [].
Proof. induction n; simpl; auto. Qed.

(** Tasks leave the queue only at its head, into the hands of a worker
    that stood at line 179 having read [m_paused] as false; they enter it
    only at its tail; and only a task held by a worker is called. *)
Lemma step_effect l s s' : exec P l s = Ok s' -> effect s s'.
Proof.
  intros H.
  step_cases H;
    try match goal with
    | Hth : m_threads s !! ?i = Some (Worker WPop), Hq : m_tasks s = ?c :: _ |- _ =>
        apply (Popped _ _ c i); unfold in_flight; pool_simpl; auto;
        rewrite <- (held_insert _ _ _ (Worker (WRun c)) Hth); reflexivity
    | Hth : m_threads s !! ?i = Some (Worker (WRun ?c)) |- _ =>
        apply (Called _ _ c); unfold in_flight; pool_simpl; auto;
        rewrite <- (held_insert _ _ _ (Worker WDec) Hth); reflexivity
    | |- effect _ (set_owner _ (set_tasks (m_tasks s ++ [?c]) _)) =>
        apply (Pushed _ _ c); unfold in_flight; pool_simpl; auto
    | |- effect _ (set_submitting _ (set_tasks (m_tasks s ++ [?c]) _)) =>
        apply (Pushed _ _ c); unfold in_flight; pool_simpl; auto
    | Hth : m_threads s !! ?i = Some ?th |- _ =>
        apply Quiet; unfold in_flight; pool_simpl; auto;
        match goal with
        | |- concat (map dequeued (<[_:=?th']> _)) ≡ₚ _ =>
            rewrite <- (held_insert _ _ _ th' Hth); reflexivity
        end
    | Hj : existsb joinable _ = false |- _ =>
        apply Quiet; unfold in_flight; pool_simpl; auto;
        rewrite held_replicate, (held_joined _ Hj); reflexivity
    | |- _ => apply Quiet; unfold in_flight; pool_simpl; auto
    end.
Qed.

Lemma run_conservation sched : forall s s',
  run P sched s = Ok s' ->
  exists n added ran,
    m_tasks s' = drop n (m_tasks s ++ added) /\
    executed s' = ran ++ executed s /\
    ran ++ in_flight s' ≡ₚ take n (m_tasks s ++ added) ++ in_flight s.
Proof.
  induction sched as [|l sched IH]; intros s s' Hrun; simpl in Hrun.
  - injection Hrun as <-. exists 0%nat, [], []. simpl. rewrite app_nil_r. auto.
  - destruct (exec P l s) as [s1| | | |] eqn:Hl; try discriminate.
    destruct (IH _ _ Hrun) as (n & added & ran & Hq & Hex & Hperm).
    destruct (step_effect _ _ _ Hl) as [Hq1 Hex1 Hf1|c Hq1 Hex1 Hf1|c i _ Hq1 Hex1 Hf1|c Hq1 Hex1 Hf1].
    + exists n, added, ran. rewrite <- Hq1, <- Hex1, <- Hf1. auto.
    + exists n, (c :: added), ran. rewrite <- Hex1, <- Hf1.
      rewrite Hq1, <- app_assoc in Hq, Hperm. auto.
    + exists (S n), added, ran. rewrite Hq1, <- Hex1. simpl.
      split; [assumption|]. split; [assumption|].
      rewrite Hperm, Hf1. symmetry. apply Permutation_middle.
    + exists n, added, (ran ++ [c]). rewrite <- Hq1, Hex, Hex1, <- app_assoc.
      split; [assumption|]. split; [reflexivity|].
      rewrite Hf1, <- (Permutation_middle (take n _) (in_flight s1) c).
      rewrite <- Hperm, <- app_assoc. simpl.
      rewrite <- Permutation_middle. reflexivity.
Qed.

End Conservation.

Section Draining.
Variable P : platform.

Lemma no_worker_past_check_lookup v i :
  no_worker_past_check v -> v !! i = Some (Worker WPop) -> False.
Proof.
  unfold no_worker_past_check. revert i.
  induction v as [|x v IH]; intros [|i] H Hi; simpl in *; try discriminate;
    apply andb_prop in H as [Hx Hv].
  - injection Hi as ->. discriminate.
  - eauto.
Qed.

Lemma no_worker_past_check_insert v i th :
  no_worker_past_check v -> past_pause_check th = false ->
  no_worker_past_check (<[i:=th]> v).
Proof.
  unfold no_worker_past_check. revert i.
  induction v as [|x v IH]; intros i H Hth; [assumption|].
  simpl in H. apply andb_prop in H as [Hx Hv].
  destruct i; simpl; [rewrite Hth|rewrite Hx]; simpl; auto.
Qed.

Lemma no_worker_past_check_replicate n :
  no_worker_past_check (replicate n NotAThread).
Proof. unfold no_worker_past_check. induction n; simpl; auto. Qed.

Lemma tearing_down_after_wait d d' : d' = d -> tearing_down d (after_wait (WTeardown d')).
Proof. now intros ->. Qed.

Lemma tearing_down_after_join d : tearing_down d (after_join d).
Proof. now destruct d. Qed.

(** While the owner is in the stop-and-join phase of a paused pool in
    which no worker stands past its pause check, no step takes a task
    from the queue, and the phase ends only by line 134 of [reset]. *)
Lemma drain_step d l s s' :
  drain_inv d s -> exec P l s = Ok s' ->
  (drain_inv d s' /\ effect s s' /\ (forall c, m_tasks s <> c :: m_tasks s')) \/
  (exists k wp, d = TReset k wp /\ owner s' = OResetRun k wp).
Proof.
  intros (Htd & Hp & Hnw) H.
  pose proof (step_effect P _ _ _ H) as Heff.
  assert (Hkeep : forall c, m_tasks s <> c :: m_tasks s').
  { intros c Hc.
    destruct Heff as [Hq _ _|c' Hq _ _|c' i Hi _ _ _|c' Hq _ _];
      try exact (no_worker_past_check_lookup _ _ Hnw Hi);
      rewrite Hq in Hc; apply (f_equal (@length task)) in Hc;
      simpl in Hc; rewrite ?length_app in Hc; simpl in Hc; lia. }
  unfold drain_inv.
  destruct (owner s) eqn:Hown; simpl in Htd; try contradiction;
    step_cases H; simplify_eq; pool_simpl; rewrite ?Hown in *; simpl in *;
    first
      [ right; do 2 eexists; split; reflexivity
      | left; (split; [|split; assumption]);
        repeat split; try assumption; try reflexivity;
        try (apply no_worker_past_check_insert; [assumption|]);
        try apply no_worker_past_check_replicate;
        try apply tearing_down_after_join;
        try (rewrite ?Hp in *; simpl; congruence);
        try (destruct (m_running s); reflexivity);
        try (exfalso; eapply no_worker_past_check_lookup; eassumption);
        try (destruct w; [contradiction|now apply tearing_down_after_wait]) ].
Qed.


Lemma drain_run d sched : forall s s',
  drain_inv d s -> run P sched s = Ok s' ->
  (drain_inv d s' /\
   exists added ran,
     m_tasks s' = m_tasks s ++ added /\ executed s' = ran ++ executed s /\
     ran ++ in_flight s' ≡ₚ in_flight s) \/
  (exists k wp sched1 sched2 s1,
     d = TReset k wp /\ sched = sched1 ++ sched2 /\
     run P sched1 s = Ok s1 /\ owner s1 = OResetRun k wp /\
     run P sched2 s1 = Ok s').
Proof.
  induction sched as [|l sched IH]; intros s s' Hinv Hrun; simpl in Hrun.
  - injection Hrun as <-. left. split; [assumption|].
    exists [], []. rewrite app_nil_r. auto.
  - destruct (exec P l s) as [s1| | | |] eqn:Hl; try discriminate.
    destruct (drain_step _ _ _ _ Hinv Hl) as [(Hinv1 & Heff & Hkeep)|(k & wp & -> & Hout)].
    + destruct (IH _ _ Hinv1 Hrun)
        as [(Hinv' & added & ran & Hq & Hex & Hperm)
           |(k & wp & sched1 & sched2 & s2 & -> & -> & Hr1 & Hown & Hr2)].
      * left. split; [assumption|].
        destruct Heff as [Hq1 Hex1 Hf1|c Hq1 Hex1 Hf1|c i _ Hq1 _ _|c Hq1 Hex1 Hf1].
        -- exists added, ran. rewrite <- Hq1, <- Hex1, <- Hf1. auto.
        -- exists (c :: added), ran. rewrite <- Hex1, <- Hf1.
           rewrite Hq1, <- app_assoc in Hq. auto.
        -- now apply Hkeep in Hq1.
        -- exists added, (ran ++ [c]). rewrite <- Hq1, Hex, Hex1, <- app_assoc.
           split; [assumption|]. split; [reflexivity|].
           rewrite Hf1, <- Hperm, <- app_assoc. simpl.
           rewrite <- Permutation_middle. reflexivity.
      * right. exists k, wp, (l :: sched1), sched2, s2.
        simpl. rewrite Hl. auto.
    + right. exists k, wp, [l], sched, s1. simpl. rewrite Hl. auto.
Qed.

Lemma restarted_step l s s' :
  is_call l = false -> restarted (owner s) -> exec P l s = Ok s' ->
  restarted (owner s').
Proof.
  unfold restarted. intros Hl Hinv H.
  step_cases H; simpl in *; try discriminate; try rewrite Heqo in *;
    try assumption; try exact I; try contradiction.
Qed.

Lemma tearing_down_not_restarted d pc : tearing_down d pc -> restarted pc -> False.
Proof. destruct pc; simpl; auto. Qed.

Lemma no_calls_app sched1 sched2 :
  no_calls (sched1 ++ sched2) -> no_calls sched2.
Proof.
  unfold no_calls. rewrite forallb_app. intros H.
  now apply andb_prop in H as [_ H].
Qed.

Lemma Permutation_In_l (ran held' held : list task) c :
  ran ++ held' ≡ₚ held -> In c ran -> In c held.
Proof.
  intros Hperm Hin. eapply Permutation_in; [exact Hperm|].
  apply in_or_app. now left.
Qed.

(** What the guard of line 179 achieves when no worker is caught between
    its two halves: if the destructor is called on a paused pool in which
    no worker has read [m_paused] as false without having dequeued yet,
    then in every state the pool goes through from there on the queue
    still starts with the tasks that were queued, in order, and the only
    tasks called since are tasks a worker had already dequeued. *)
Lemma destruction_without_race (s : pool) (sched : list label) (s' : pool) :
  owner s = OIdle -> m_paused s = true ->
  no_worker_past_check (m_threads s) ->
  run P (LCall OpDestroy :: sched) s = Ok s' ->
  exists added ran,
    m_tasks s' = m_tasks s ++ added /\
    executed s' = ran ++ executed s /\
    ran ++ in_flight s' ≡ₚ in_flight s /\
    (forall c, In c ran -> In c (in_flight s)) /\
    (forall c, In c (m_tasks s) -> ~ In c (in_flight s) -> ~ In c ran).
Proof.
  intros Hown Hp Hnw Hrun. simpl in Hrun.
  unfold exec, call in Hrun. rewrite Hown in Hrun.
  destruct (drain_run TDtor sched _ _ (conj eq_refl (conj Hp Hnw) : drain_inv TDtor
              (set_owner (entry OpDestroy) s)) Hrun)
    as [(_ & added & ran & Hq & Hex & Hperm)|(k & wp & ? & ? & ? & ? & _)];
    [|discriminate].
  exists added, ran. pool_simpl. unfold in_flight in *. pool_simpl.
  repeat split; try assumption.
  - intros c. now apply Permutation_In_l with (held' := concat (map dequeued (m_threads s'))).
  - intros c _ Hnot Hin. apply Hnot.
    now apply Permutation_In_l with (ran := ran) (held' := concat (map dequeued (m_threads s'))).
Qed.

Lemma owner_step_in_reset s s' :
  in_reset (owner s) = true -> exec P LOwner s = Ok s' ->
  m_tasks s' = m_tasks s /\ executed s' = executed s /\
  m_tasksTotalCount s' = m_tasksTotalCount s.
Proof.
  intros Hin H.
  step_cases H; rewrite ?Heqo in *; simpl in *; try discriminate; auto.
Qed.

(** The same for [reset]: from any state of a paused pool inside the
    call in which no worker stands past its pause check, up to line 134,
    no task leaves the queue. *)
Lemma reset_drain_without_race k wp s sched s' :
  drain_inv (TReset k wp) s -> no_calls sched ->
  run P sched s = Ok s' -> tearing_down (TReset k wp) (owner s') ->
  exists added ran,
    m_tasks s' = m_tasks s ++ added /\
    executed s' = ran ++ executed s /\
    ran ++ in_flight s' ≡ₚ in_flight s.
Proof.
  intros Hinv Hnc Hrun Hend.
  destruct (drain_run _ _ _ _ Hinv Hrun)
    as [(_ & H)|(k' & wp' & sched1 & sched2 & s1 & _ & -> & Hr1 & Hown & Hr2)];
    [assumption|].
  exfalso. apply (tearing_down_not_restarted _ _ Hend).
  apply no_calls_app in Hnc.
  eapply (run_invariant_no_calls P (fun s => restarted (owner s)));
    eauto using restarted_step.
  rewrite Hown. exact I.
Qed.


End Draining.

Section Shape.
Variable P : platform.

Lemma shape_inv_step l s s' : shape_inv P s -> exec P l s = Ok s' -> shape_inv P s'.
Proof.
  unfold shape_inv. intros Hinv H.
  step_cases H; simpl in *; rewrite ?Heqo in *; rewrite ?length_insert;
    try assumption; try tauto;
    repeat match goal with
    | o : op |- _ => destruct o
    | w : waiter |- _ => destruct w
    | d : teardown |- _ => destruct d
    | b : builder |- _ => destruct b
    end; simpl in *; rewrite ?length_insert, ?length_replicate;
    try assumption; try tauto.
  all: try match goal with
       | Hl : _ !! _ = Some _ |- _ => apply lookup_lt_Some in Hl
       end;
       try match goal with
       | Hlt : (_ <? _) = true |- _ => apply Z.ltb_lt in Hlt
       | Hlt : (_ <? _) = false |- _ => apply Z.ltb_ge in Hlt
       end;
       try (destruct (fallback P threadsCount =? 0) eqn:?);
       try lia.
  all: unfold fallback in *; destruct (threadsCount =? 0) eqn:Hk;
    [apply Z.eqb_eq in Hk|apply Z.eqb_neq in Hk]; lia.
Qed.

Lemma shape_inv_reachable s : reachable P s -> shape_inv P s.
Proof.
  apply reachable_invariant; [|intros; eapply shape_inv_step; eauto].
  intros k _. unfold shape_inv, construct; simpl.
  rewrite length_replicate. split; [reflexivity|lia].
Qed.

End Shape.

Section Progress.
Variable P : platform.

Lemma exec_alive l s :
  owner s <> ODestroyed ->
  exec P l s = match l with
               | LCall o => call o s
               | LOwner => owner_step P s
               | LWorker i => worker P i s
               | LSubmit c => submit_inc P c s
               | LSubmitPush j => submit_push j s
               end.
Proof. intros H. unfold exec. destruct (owner s); congruence. Qed.

Lemma leads_refl s : leads P s s.
Proof. exists []. split; reflexivity. Qed.

Lemma leads_trans s1 s2 s3 : leads P s1 s2 -> leads P s2 s3 -> leads P s1 s3.
Proof.
  intros (a & Ha & Hra) (b & Hb & Hrb). exists (a ++ b). split.
  - unfold no_calls in *. rewrite forallb_app, Ha, Hb. reflexivity.
  - now rewrite run_app, Hra.
Qed.

Lemma leads_step l s s' : is_call l = false -> exec P l s = Ok s' -> leads P s s'.
Proof.
  intros Hl H. exists [l]. split.
  - unfold no_calls. simpl. now rewrite Hl.
  - simpl. now rewrite H.
Qed.

Lemma leads_reachable s s' : reachable P s -> leads P s s' -> reachable P s'.
Proof. intros Hr (sched & _ & Hrun). eapply reachable_run; eauto. Qed.

Lemma only_worker_refl i s : only_worker i s s.
Proof. unfold only_worker. auto 10. Qed.

Lemma only_worker_trans i s1 s2 s3 :
  only_worker i s1 s2 -> only_worker i s2 s3 -> only_worker i s1 s3.
Proof.
  unfold only_worker.
  intros (?&?&?&?&?&?&H12) (?&?&?&?&?&?&H23).
  repeat split; try congruence.
  intros j Hj. rewrite H23, H12; auto.
Qed.

(** A worker that has not left its loop can always take its next step. *)
Lemma worker_advances i s pc :
  owner s <> ODestroyed -> m_threads s !! i = Some (Worker pc) -> pc <> WDone ->
  exists s' pc',
    exec P (LWorker i) s = Ok s' /\ m_threads s' !! i = Some (Worker pc') /\
    only_worker i s s' /\ wpc_next s pc pc'.
Proof.
  intros Halive Hth Hpc. rewrite (exec_alive _ _ Halive).
  pose proof (lookup_lt_Some _ _ _ Hth) as Hlt.
  unfold worker. rewrite Hth.
  destruct pc; try congruence;
    try destruct (popTask (m_tasks s)) as [[c|] q];
    eexists _, _; (split; [reflexivity|]);
    unfold only_worker; pool_simpl; rewrite length_insert;
    (split; [now apply list_lookup_insert_eq|]);
    (split; [repeat split; auto using list_lookup_insert_ne|]);
    simpl; eauto.
Qed.

(** Any worker can be run until it holds no task and is not about to
    take one. *)
Lemma settle_worker i s :
  owner s <> ODestroyed ->
  exists s', leads P s s' /\ only_worker i s s' /\
             forall th, m_threads s' !! i = Some th -> settled th.
Proof.
  intros Halive.
  assert (Hdec : forall s1 : pool, owner s1 <> ODestroyed ->
            m_threads s1 !! i = Some (Worker WDec) ->
            exists s', leads P s1 s' /\ only_worker i s1 s' /\
                       forall th, m_threads s' !! i = Some th -> settled th).
  { intros s1 Ha Hth.
    destruct (worker_advances i s1 WDec Ha Hth ltac:(discriminate))
      as (s2 & pc2 & He & Hth2 & Ho & Hn). simpl in Hn. subst pc2.
    exists s2. split; [eapply leads_step; [|exact He]; reflexivity|]. split; [assumption|].
    intros th Hth'. rewrite Hth2 in Hth'. now injection Hth' as <-. }
  assert (Hrun : forall (s1 : pool) c, owner s1 <> ODestroyed ->
            m_threads s1 !! i = Some (Worker (WRun c)) ->
            exists s', leads P s1 s' /\ only_worker i s1 s' /\
                       forall th, m_threads s' !! i = Some th -> settled th).
  { intros s1 c Ha Hth.
    destruct (worker_advances i s1 (WRun c) Ha Hth ltac:(discriminate))
      as (s2 & pc2 & He & Hth2 & Ho & Hn). simpl in Hn. subst pc2.
    destruct (Hdec s2) as (s3 & Hl & Ho3 & Hs3); auto.
    { destruct Ho as (_ & _ & -> & _). assumption. }
    exists s3. split; [eapply leads_trans; [eapply leads_step; [|exact He]; reflexivity|eauto]|].
    split; [eapply only_worker_trans; eauto|assumption]. }
  destruct (m_threads s !! i) as [[|pc]|] eqn:Hth.
  1, 3: (exists s; split; [apply leads_refl|]; split; [apply only_worker_refl|];
    intros th Hth'; rewrite Hth in Hth'; now simplify_eq).
  destruct pc; eauto;
    try (exists s; split; [apply leads_refl|]; split; [apply only_worker_refl|];
         intros th Hth'; rewrite Hth in Hth'; now simplify_eq).
  destruct (worker_advances i s WPop Halive Hth ltac:(discriminate))
    as (s2 & pc2 & He & Hth2 & Ho & Hn). simpl in Hn.
  assert (Ha2 : owner s2 <> ODestroyed).
  { destruct Ho as (_ & _ & -> & _). assumption. }
  destruct Hn as [->|[c ->]].
  - exists s2. split; [eapply leads_step; [|exact He]; reflexivity|]. split; [assumption|].
    intros th Hth'. rewrite Hth2 in Hth'. now injection Hth' as <-.
  - destruct (Hrun s2 c Ha2 Hth2) as (s3 & Hl & Ho3 & Hs3).
    exists s3. split; [eapply leads_trans; [eapply leads_step; [|exact He]; reflexivity|eauto]|].
    split; [eapply only_worker_trans; eauto|assumption].
Qed.

Lemma only_worker_frame i s s' : only_worker i s s' -> workers_frame s s'.
Proof. unfold only_worker, workers_frame. tauto. Qed.

Lemma workers_frame_trans s1 s2 s3 :
  workers_frame s1 s2 -> workers_frame s2 s3 -> workers_frame s1 s3.
Proof. unfold workers_frame. intros (?&?&?&?&?&?) (?&?&?&?&?&?). repeat split; congruence. Qed.

(** All workers can be run until none holds a task or is about to take
    one. *)
Lemma settle_workers n : forall s,
  owner s <> ODestroyed ->
  exists s', leads P s s' /\ workers_frame s s' /\
             forall j th, (j < n)%nat -> m_threads s' !! j = Some th -> settled th.
Proof.
  induction n as [|n IH]; intros s Halive.
  - exists s. split; [apply leads_refl|]. split; [unfold workers_frame; auto 10|].
    intros j th Hj. lia.
  - destruct (IH s Halive) as (s1 & Hl1 & Hf1 & Hs1).
    assert (Ha1 : owner s1 <> ODestroyed).
    { destruct Hf1 as (_ & _ & -> & _). assumption. }
    destruct (settle_worker n s1 Ha1) as (s2 & Hl2 & Ho2 & Hs2).
    exists s2. split; [eapply leads_trans; eauto|].
    split; [eapply workers_frame_trans; eauto using only_worker_frame|].
    intros j th Hj Hth. destruct (decide (j = n)) as [->|Hne]; [eauto|].
    destruct Ho2 as (_ & _ & _ & _ & _ & _ & Hsame).
    rewrite Hsame in Hth by assumption. apply (Hs1 j); [lia|assumption].
Qed.

Lemma settle_all s :
  owner s <> ODestroyed ->
  exists s', leads P s s' /\ workers_frame s s' /\ Forall settled (m_threads s').
Proof.
  intros Halive.
  destruct (settle_workers (length (m_threads s)) s Halive) as (s' & Hl & Hf & Hs).
  exists s'. split; [assumption|]. split; [assumption|].
  apply Forall_lookup. intros j th Hth. apply (Hs j); [|assumption].
  apply lookup_lt_Some in Hth. destruct Hf as (_ & _ & _ & _ & _ & <-). assumption.
Qed.

(** The concurrent [addTask] calls in progress can all be completed. *)
Lemma flush_submitting sub : forall s,
  submitting s = sub -> owner s <> ODestroyed ->
  leads P s (set_submitting [] (set_tasks (m_tasks s ++ sub) s)).
Proof.
  induction sub as [|c sub IH]; intros s Hsub Halive.
  - rewrite app_nil_r. replace (set_submitting [] (set_tasks (m_tasks s) s)) with s;
      [apply leads_refl|]. destruct s; simpl in *; now subst.
  - eapply leads_trans.
    + apply (leads_step (LSubmitPush 0)); [reflexivity|].
      rewrite (exec_alive _ _ Halive). unfold submit_push. rewrite Hsub. reflexivity.
    + simpl. match goal with |- leads _ ?s1 _ => specialize (IH s1) end.
      simpl in IH. rewrite <- app_assoc in IH. apply IH; auto.
Qed.

Lemma busy_workers_settled v : Forall settled v -> busy_workers v = 0.
Proof.
  induction 1 as [|th v Hth _ IH]; simpl; [reflexivity|].
  rewrite IH. destruct th as [|[]]; simpl in *; try reflexivity; discriminate.
Qed.

Lemma size_sub_wrap_self n : size_sub P (wrap P n) n = 0.
Proof.
  unfold size_sub, wrap. rewrite Zminus_mod_idemp_l, Z.sub_diag. apply Zmod_0_l.
Qed.

(** With the pool paused, nothing held by the workers and no [addTask]
    under way, [waitForTasks] returns on its first round. *)
Lemma waitForTasks_returns_when_settled w s :
  owner s = OWait w -> m_paused s = true -> counter_inv P s ->
  Forall settled (m_threads s) -> submitting s = [] ->
  leads P s (set_owner (after_wait w) s).
Proof.
  intros Hown Hp Hc Hset Hsub.
  assert (Htot : m_tasksTotalCount s = wrap P (getTasksQueuedCount s)).
  { unfold counter_inv, outstanding in Hc.
    rewrite (busy_workers_settled _ Hset), Hsub, Hown in Hc. simpl in Hc.
    rewrite Hc. unfold getTasksQueuedCount. f_equal. lia. }
  exists [LOwner; LOwner; LOwner]. split; [reflexivity|].
  simpl. unfold exec, owner_step. rewrite Hown, Hp. pool_simpl.
  unfold getTasksRunningCount, getTasksQueuedCount in *. pool_simpl.
  rewrite Htot. destruct (minuend_first P); rewrite size_sub_wrap_self; reflexivity.
Qed.

Lemma set_thread_id i th s : m_threads s !! i = Some th -> set_thread i th s = s.
Proof.
  intros H. unfold set_thread, set_threads. rewrite list_insert_id by assumption.
  apply pool_eta.
Qed.

Lemma set_thread_twice i th th' s :
  set_thread i th' (set_thread i th s) = set_thread i th' s.
Proof.
  unfold set_thread, set_threads. pool_simpl. now rewrite list_insert_insert_eq.
Qed.

(** The steps of a worker that change nothing but its own position. *)
Lemma worker_moves i s pc :
  owner s <> ODestroyed -> m_threads s !! i = Some (Worker pc) ->
  match pc with
  | WLoop =>
      exec P (LWorker i) s
      = Ok (set_thread i (Worker (if m_running s then WCheckPaused else WDone)) s)
  | WCheckPaused =>
      exec P (LWorker i) s
      = Ok (set_thread i (Worker (if m_paused s then WYield else WPop)) s)
  | WYield => exec P (LWorker i) s = Ok (set_thread i (Worker WLoop) s)
  | _ => True
  end.
Proof.
  intros Halive Hth. rewrite (exec_alive _ _ Halive). unfold worker.
  rewrite Hth. now destruct pc.
Qed.

Lemma set_thread_lookup i th s :
  (i < length (m_threads s))%nat -> m_threads (set_thread i th s) !! i = Some th.
Proof. intros H. unfold set_thread. pool_simpl. now apply list_lookup_insert_eq. Qed.

(** Once [m_running] is cleared in a paused pool, a settled worker can be
    run until it has left its loop, nothing else changing. *)
Lemma retire_worker i th s :
  owner s <> ODestroyed -> m_running s = false -> m_paused s = true ->
  m_threads s !! i = Some th -> settled th ->
  leads P s (set_thread i (retired th) s).
Proof.
  intros Halive Hr Hp Hth Hset.
  pose proof (lookup_lt_Some _ _ _ Hth) as Hlt.
  assert (Hloop : forall s1, owner s1 <> ODestroyed -> m_running s1 = false ->
            m_threads s1 !! i = Some (Worker WLoop) ->
            leads P s1 (set_thread i (Worker WDone) s1)).
  { intros s1 Ha1 Hr1 Hth1. apply (leads_step (LWorker i)); [reflexivity|].
    pose proof (worker_moves i s1 WLoop Ha1 Hth1) as He. simpl in He.
    now rewrite Hr1 in He. }
  assert (Hyield : forall s1, owner s1 <> ODestroyed -> m_running s1 = false ->
            m_threads s1 !! i = Some (Worker WYield) ->
            leads P s1 (set_thread i (Worker WDone) s1)).
  { intros s1 Ha1 Hr1 Hth1.
    pose proof (lookup_lt_Some _ _ _ Hth1) as Hlt1.
    eapply leads_trans.
    - apply (leads_step (LWorker i)); [reflexivity|].
      exact (worker_moves i s1 WYield Ha1 Hth1).
    - rewrite <- (set_thread_twice i (Worker WLoop) (Worker WDone) s1).
      apply Hloop; auto. now apply set_thread_lookup. }
  destruct th as [|pc]; simpl.
  - rewrite set_thread_id by assumption. apply leads_refl.
  - destruct pc; try discriminate Hset; auto.
    + eapply leads_trans.
      * apply (leads_step (LWorker i)); [reflexivity|].
        pose proof (worker_moves i s WCheckPaused Halive Hth) as He. simpl in He.
        rewrite Hp in He. exact He.
      * rewrite <- (set_thread_twice i (Worker WYield) (Worker WDone) s).
        apply Hyield; auto. now apply set_thread_lookup.
    + rewrite set_thread_id by assumption. apply leads_refl.
Qed.

Lemma settled_retired th : settled (retired th).
Proof. now destruct th. Qed.

Lemma threads_frame_trans s1 s2 s3 :
  threads_frame s1 s2 -> threads_frame s2 s3 -> threads_frame s1 s3.
Proof.
  unfold threads_frame. intros (?&?&?&?&?&?&?&?) (?&?&?&?&?&?&?&?).
  repeat split; congruence.
Qed.

(** [joinThreads] (lines 150-156) can be run to its end once [m_running]
    is cleared in a paused pool whose workers are settled: every worker
    leaves its loop and is joined. *)
Lemma join_all d n : forall s i,
  owner s = OJoin d i -> 0 <= i -> m_running s = false -> m_paused s = true ->
  length (m_threads s) = Z.to_nat (m_threadsCount s) ->
  Forall settled (m_threads s) ->
  (Z.to_nat (m_threadsCount s) - Z.to_nat i = n)%nat ->
  exists s', leads P s s' /\ owner s' = after_join d /\ threads_frame s s' /\
    (forall j, (j < Z.to_nat i)%nat -> m_threads s' !! j = m_threads s !! j) /\
    (forall j th, (Z.to_nat i <= j)%nat -> m_threads s' !! j = Some th ->
                  th = NotAThread).
Proof.
  induction n as [|n IH]; intros s i Hown Hi Hr Hp Hlen Hset Hn.
  - exists (set_owner (after_join d) s). split; [|split; [reflexivity|split]].
    + apply (leads_step LOwner); [reflexivity|].
      unfold exec, owner_step. rewrite Hown.
      replace (i <? m_threadsCount s) with false; [reflexivity|].
      symmetry. apply Z.ltb_ge. lia.
    + unfold threads_frame. pool_simpl. auto 10.
    + pool_simpl. split; [reflexivity|].
      intros j th Hj Hth. apply lookup_lt_Some in Hth. lia.
  - assert (Hlt : i < m_threadsCount s) by lia.
    assert (Halive : owner s <> ODestroyed) by (rewrite Hown; discriminate).
    destruct (lookup_lt_is_Some_2 (m_threads s) (Z.to_nat i)) as [th Hth]; [lia|].
    pose proof (proj1 (Forall_lookup _ _) Hset _ _ Hth) as Hsth.
    pose proof (retire_worker _ _ _ Halive Hr Hp Hth Hsth) as Hl1.
    set (s1 := set_thread (Z.to_nat i) (retired th) s) in *.
    set (s2 := set_owner (OJoin d (i + 1)) (set_thread (Z.to_nat i) NotAThread s)).
    assert (Hl2 : leads P s1 s2).
    { apply (leads_step LOwner); [reflexivity|].
      unfold exec, owner_step. subst s1 s2. pool_simpl. rewrite Hown.
      apply Z.ltb_lt in Hlt. rewrite Hlt.
      rewrite list_lookup_insert_eq by lia.
      destruct th as [|pc]; simpl; unfold set_thread, set_threads; pool_simpl;
        rewrite ?list_insert_insert_eq; reflexivity. }
    destruct (IH s2 (i + 1)) as (s' & Hl3 & Hown' & Hf & Hlow & Hhigh);
      subst s2; pool_simpl; auto; try lia.
    { now rewrite length_insert. }
    { apply Forall_insert; [assumption|reflexivity]. }
    exists s'. split; [eauto using leads_trans|]. split; [assumption|]. split; [|split].
    + unfold threads_frame in *. pool_simpl. rewrite length_insert in Hf. exact Hf.
    + intros j Hj. rewrite Hlow by lia. apply list_lookup_insert_ne. lia.
    + intros j th' Hj Hth'. destruct (decide (j = Z.to_nat i)) as [->|Hne].
      * rewrite Hlow in Hth' by lia.
        rewrite list_lookup_insert_eq in Hth' by lia. congruence.
      * apply (Hhigh j); [lia|assumption].
Qed.

(** [createThreads] (lines 142-145) runs to its end when the vector has
    [m_threadsCount] slots and those still to fill are empty. *)
Lemma create_all b n : forall s i,
  owner s = OCreate b i -> 0 <= i ->
  length (m_threads s) = Z.to_nat (m_threadsCount s) ->
  (forall j, (Z.to_nat i <= j < length (m_threads s))%nat ->
             m_threads s !! j = Some NotAThread) ->
  (Z.to_nat (m_threadsCount s) - Z.to_nat i = n)%nat ->
  exists s', leads P s s' /\ owner s' = OIdle /\ threads_frame s s'.
Proof.
  induction n as [|n IH]; intros s i Hown Hi Hlen Hfree Hn.
  - exists (set_owner OIdle s). split; [|split; [reflexivity|]].
    + apply (leads_step LOwner); [reflexivity|].
      unfold exec, owner_step. rewrite Hown.
      replace (i <? m_threadsCount s) with false; [reflexivity|].
      symmetry. apply Z.ltb_ge. lia.
    + unfold threads_frame. pool_simpl. auto 10.
  - assert (Hlt : i < m_threadsCount s) by lia.
    set (s1 := set_owner (OCreate b (i + 1))
                 (set_thread (Z.to_nat i) (Worker WLoop) s)).
    assert (Hl1 : leads P s s1).
    { apply (leads_step LOwner); [reflexivity|].
      unfold exec, owner_step. rewrite Hown.
      apply Z.ltb_lt in Hlt. rewrite Hlt, Hfree by lia. reflexivity. }
    destruct (IH s1 (i + 1)) as (s' & Hl2 & Hown' & Hf);
      subst s1; pool_simpl; auto; try lia.
    { now rewrite length_insert. }
    { intros j Hj. rewrite length_insert in Hj.
      rewrite list_lookup_insert_ne by lia. apply Hfree. lia. }
    exists s'. split; [eauto using leads_trans|]. split; [assumption|].
    unfold threads_frame in *. pool_simpl. rewrite length_insert in Hf. exact Hf.
Qed.

Lemma all_joined v :
  (forall j th, v !! j = Some th -> th = NotAThread) -> existsb joinable v = false.
Proof.
  induction v as [|th v IH]; intros H; simpl; [reflexivity|].
  rewrite (H 0%nat th eq_refl). simpl. apply IH.
  intros j th' Hj. exact (H (S j) th' Hj).
Qed.

(** The stop-and-join sequence of [reset] and of the destructor (lines
    128-130 and 50-52) can always be run to its end in a paused pool. *)
Lemma teardown_completes d s :
  reachable P s -> owner s = OWait (WTeardown d) -> m_paused s = true ->
  exists s', leads P s s' /\ owner s' = after_join d /\
    m_paused s' = true /\ m_running s' = false /\
    m_threadsCount s' = m_threadsCount s /\
    existsb joinable (m_threads s') = false.
Proof.
  intros Hreach Hown Hp.
  assert (Halive : owner s <> ODestroyed) by (rewrite Hown; discriminate).
  pose proof (flush_submitting (submitting s) s eq_refl Halive) as Hl1.
  set (s1 := set_submitting [] (set_tasks (m_tasks s ++ submitting s) s)) in *.
  destruct (settle_all s1) as (s2 & Hl2 & (Hp2 & Hr2 & Ho2 & Hs2 & Hc2 & Hlen2) & Hset2);
    [exact Halive|].
  subst s1. pool_simpl.
  pose proof (leads_trans _ _ _ Hl1 Hl2) as Hl02.
  pose proof (leads_reachable _ _ Hreach Hl02) as Hreach2.
  rewrite Hown in Ho2. rewrite Hp in Hp2.
  pose proof (waitForTasks_returns_when_settled _ _ Ho2 Hp2
                (counter_inv_reachable P _ Hreach2) Hset2 Hs2) as Hl3.
  set (s3 := set_owner (after_wait (WTeardown d)) s2) in *.
  set (s4 := set_owner (OJoin d 0) (set_running false s3)).
  assert (Hl4 : leads P s3 s4).
  { apply (leads_step LOwner); reflexivity. }
  pose proof (leads_trans _ _ _ Hl02 (leads_trans _ _ _ Hl3 Hl4)) as Hl04.
  pose proof (shape_inv_reachable P _ (leads_reachable _ _ Hreach Hl04)) as Hshape.
  unfold shape_inv in Hshape. subst s4 s3. pool_simpl.
  match type of Hl04 with leads _ _ ?s4 =>
    destruct (join_all d (Z.to_nat (m_threadsCount s2)) s4 0)
      as (s5 & Hl5 & Hown5 & (_ & _ & _ & _ & Hp5 & Hr5 & Hc5 & _) & _ & Hhigh)
  end; pool_simpl; auto; try lia.
  exists s5. split; [eauto using leads_trans|]. split; [assumption|].
  pool_simpl. repeat split; try congruence.
  apply all_joined. intros j th. apply Hhigh. simpl. lia.
Qed.

(** [reset(k)] can always be run to its return when [k] is within the
    vector's [max_size()] and the vector it builds has as many slots as
    the fallback-adjusted count (every such [k] but 0, and 0 when the
    platform's hint is 0): the pool then has [k] workers and is neither
    paused nor stopped. *)
Lemma reset_completes (s : pool) (k : Z) :
  reachable P s -> owner s = OIdle -> k <= max_size P ->
  Z.to_nat (fallback P k) = Z.to_nat k ->
  exists sched s',
    no_calls sched /\ run P (LCall (OpReset k) :: sched) s = Ok s' /\
    owner s' = OIdle /\ getThreadsCount s' = fallback P k /\
    length (m_threads s') = Z.to_nat (getThreadsCount s') /\
    m_paused s' = false /\ m_running s' = true.
Proof.
  intros Hreach Hown Hmax Hk.
  apply Z.ltb_ge in Hmax.
  set (s1 := set_owner (OResetLoad k) s).
  assert (Hcall : exec P (LCall (OpReset k)) s = Ok s1).
  { unfold exec, call. now rewrite Hown. }
  set (wp := m_paused s).
  set (s2 := set_owner (OWait (WTeardown (TReset k wp))) (set_paused true s1)).
  assert (Hl1 : leads P s1 s2).
  { exists [LOwner; LOwner]. split; reflexivity. }
  pose proof (reachable_step P _ _ _ Hreach Hcall) as Hreach1.
  pose proof (leads_reachable _ _ Hreach1 Hl1) as Hreach2.
  destruct (teardown_completes (TReset k wp) s2 Hreach2 eq_refl eq_refl)
    as (s3 & Hl2 & Hown3 & Hp3 & Hr3 & Hc3 & Hj3).
  simpl in Hown3.
  set (s4 := set_owner (OCreate (BReset k wp) 0)
               (set_running true (set_paused false
                  (set_threads (replicate (Z.to_nat k) NotAThread)
                     (set_threadsCount (fallback P k) s3))))).
  assert (Hl3 : leads P s3 s4).
  { exists [LOwner; LOwner; LOwner; LOwner]. split; [reflexivity|].
    simpl. unfold exec, owner_step. rewrite Hown3. pool_simpl.
    rewrite Hmax, Hj3. reflexivity. }
  destruct (create_all (BReset k wp) (Z.to_nat (fallback P k)) s4 0)
    as (s5 & Hl4 & Hown5 & (_ & _ & _ & _ & Hp5 & Hr5 & Hc5 & Hlen5));
    subst s4; pool_simpl; auto; try lia.
  { now rewrite length_replicate. }
  { intros j Hj. rewrite length_replicate in Hj. apply lookup_replicate_2. lia. }
  destruct (leads_trans _ _ _ Hl1 (leads_trans _ _ _ Hl2 (leads_trans _ _ _ Hl3 Hl4)))
    as (sched & Hnc & Hrun).
  exists sched, s5. split; [assumption|]. split.
  { simpl. rewrite Hcall. assumption. }
  unfold getThreadsCount. rewrite length_replicate in Hlen5.
  repeat split; try assumption; congruence.
Qed.

(** The destructor of a paused pool can always be run to its end. *)
Lemma paused_destructor_completes (s : pool) :
  reachable P s -> owner s = OIdle -> m_paused s = true ->
  exists sched s',
    run P (LCall OpDestroy :: sched) s = Ok s' /\ owner s' = ODestroyed.
Proof.
  intros Hreach Hown Hp.
  set (s1 := set_owner (OWait (WTeardown TDtor)) s).
  assert (Hcall : exec P (LCall OpDestroy) s = Ok s1).
  { unfold exec, call. now rewrite Hown. }
  destruct (teardown_completes TDtor s1 (reachable_step P _ _ _ Hreach Hcall)
              eq_refl Hp) as (s2 & (sched & _ & Hrun) & Hown2 & _).
  exists sched, s2. simpl. rewrite Hcall. auto.
Qed.

(** [createThreads] stays within the vector in the constructor, and in
    [reset(k)] whenever the vector built from [k] has as many slots as
    the fallback-adjusted count. *)
Lemma createThreads_in_bounds (s : pool) (b : builder) (i : Z) :
  reachable P s -> owner s = OCreate b i ->
  match b with
  | BCtor => True
  | BReset k _ => Z.to_nat (fallback P k) = Z.to_nat k
  end ->
  exec P LOwner s <> Undefined.
Proof.
  intros Hreach Hown Hb.
  pose proof (shape_inv_reachable P _ Hreach) as Hshape.
  unfold shape_inv in Hshape. rewrite Hown in Hshape.
  unfold exec, owner_step. rewrite Hown.
  destruct (i <? m_threadsCount s) eqn:Hlt; [|discriminate].
  apply Z.ltb_lt in Hlt.
  destruct (lookup_lt_is_Some_2 (m_threads s) (Z.to_nat i)) as [th ->].
  - destruct b; [lia|]. destruct Hshape as (Hc & Hlen & _ & Hi).
    rewrite Hlen, <- Hb, <- Hc. lia.
  - destruct th; discriminate.
Qed.

(** C1: wherever [reset(0)] arrives at [createThreads] on a platform
    whose concurrency hint is not 0, [getThreadsCount()] reports the
    hint, the vector built by line 133 is empty, and the first iteration
    of [createThreads] indexes it out of bounds. *)
Theorem reset_zero_overruns_vector (s : pool) (wp : bool) (i : Z) :
  reachable P s -> owner s = OCreate (BReset 0 wp) i ->
  0 < hardware_concurrency P ->
  i = 0 /\ getThreadsCount s = fallback P 0 /\
  getThreadsCount s = hardware_concurrency P /\
  m_threads s = [] /\ exec P LOwner s = Undefined.
Proof.
  intros Hreach Hown Hhc.
  pose proof (shape_inv_reachable P _ Hreach) as Hshape.
  unfold shape_inv in Hshape. rewrite Hown in Hshape.
  destruct Hshape as (Hc & Hlen & Hi & Hi0).
  change (Z.to_nat 0) with 0%nat in Hlen.
  assert (Hnil : m_threads s = []) by (now destruct (m_threads s)).
  assert (i = 0) as -> by lia.
  unfold getThreadsCount, fallback in *. simpl in Hc.
  repeat split; try assumption.
  unfold exec, owner_step. rewrite Hown, Hc, Hnil.
  replace (0 <? hardware_concurrency P) with true; [reflexivity|].
  symmetry. now apply Z.ltb_lt.
Qed.

End Progress.

Section Paused.
Variable P : platform.

Lemma frozen_run sched : forall s s',
  owner_rests sched -> m_paused s = true -> Forall settled (m_threads s) ->
  run P sched s = Ok s' ->
  exists added,
    m_tasks s' = m_tasks s ++ added /\ executed s' = executed s /\
    m_paused s' = true /\ Forall settled (m_threads s').
Proof.
  unfold owner_rests.
  induction sched as [|l sched IH]; intros s s' Hrest Hp Hset Hrun; simpl in *.
  - injection Hrun as <-. exists []. rewrite app_nil_r. auto.
  - apply andb_prop in Hrest as [Hl Hrest]. apply negb_true_iff in Hl.
    destruct (exec P l s) as [s1| | | |] eqn:He; try discriminate.
    destruct (frozen_step P _ _ _ Hl Hp Hset He) as (Hp1 & Hset1 & Hex1 & Hq1).
    destruct (IH _ _ Hrest Hp1 Hset1 Hrun) as (added & Hq & Hex & Hp' & Hset').
    rewrite Hex1 in Hex.
    destruct Hq1 as [Hq1|[c Hq1]]; rewrite Hq1 in Hq.
    + exists added. auto.
    + exists (c :: added). rewrite <- app_assoc in Hq. auto.
Qed.

(** What the guard of line 179 achieves for a worker that reads the flag
    as set: while [m_paused] is set, a step of a worker that is not
    between its pause check and the end of a task it took leaves the
    queue, the counter, the flags and the call log as they are, and
    leaves the worker outside that stretch.  So in a paused pool all of
    whose workers are outside that stretch, however the workers and
    other clients run while the owner rests, no task is dequeued or
    called. *)
Lemma guard_holds_when_read_set :
  (forall s s' i th,
     m_paused s = true ->
     m_threads s !! i = Some th -> before_pause_check th = true ->
     exec P (LWorker i) s = Ok s' ->
     m_tasks s' = m_tasks s /\ m_tasksTotalCount s' = m_tasksTotalCount s /\
     executed s' = executed s /\ m_paused s' = true /\
     m_running s' = m_running s /\ submitting s' = submitting s /\
     owner s' = owner s /\
     exists th', m_threads s' = <[i:=th']> (m_threads s) /\
                 before_pause_check th' = true) /\
  (forall s sched s',
     m_paused s = true -> Forall settled (m_threads s) ->
     owner_rests sched -> run P sched s = Ok s' ->
     exists added,
       m_tasks s' = m_tasks s ++ added /\ executed s' = executed s /\
       m_paused s' = true /\ Forall settled (m_threads s')).
Proof.
  split.
  - intros s s' i th. apply paused_worker_step.
  - intros s sched s' Hp Hset Hrest Hrun. eapply frozen_run; eauto.
Qed.

End Paused.

Section Life.
Variable P : platform.

Lemma Forall_joined_replicate n : Forall joined (replicate n NotAThread).
Proof. apply Forall_replicate. reflexivity. Qed.

Lemma Forall_joined_not_joinable v : Forall joined v -> existsb joinable v = false.
Proof.
  induction 1 as [|th v Hth _ IH]; simpl; [reflexivity|].
  rewrite Hth. assumption.
Qed.

Lemma live_joinable th : live th -> joinable th = true.
Proof. destruct th; simpl; [contradiction|reflexivity]. Qed.

Lemma life_inv_construct k : life_inv (construct P k).
Proof.
  unfold life_inv, construct; simpl. split; [reflexivity|]. split; [lia|].
  intros j th Hth. apply lookup_replicate in Hth as [-> _].
  split; [lia|reflexivity].
Qed.

(** One step keeps [life_inv], given that the vector has the size the
    count says. *)
Lemma life_inv_step l s s' :
  shape_inv P s -> life_inv s -> exec P l s = Ok s' -> life_inv s'.
Proof.
  unfold life_inv, shape_inv. intros Hshape Hinv H.
  destruct l as [o| |i|c|j].
  - (* a call: the owner was idle *)
    unfold exec, call in H.
    destruct (owner s) eqn:Hown; try discriminate. injection H as <-.
    pool_simpl. destruct o; simpl; exact Hinv.
  - (* a step of the owner *)

    destruct (owner s) eqn:Hown;
      unfold exec, owner_step in H; rewrite Hown in H; try discriminate;
      repeat break_match H; injection H as <-; pool_simpl;
      try rewrite Hown in *;
      repeat match goal with
      | w : waiter |- _ => destruct w
      | d : teardown |- _ => destruct d
      | b : builder |- _ => destruct b
      end; simpl after_wait in *; simpl after_join in *; cbv beta iota;
      try exact Hinv;
      repeat match goal with
      | Hlt : (_ <? _) = true |- _ => apply Z.ltb_lt in Hlt
      | Hlt : (_ <? _) = false |- _ => apply Z.ltb_ge in Hlt
      end.
    all: try (destruct Hinv as (Hr & Hall); split; [first [reflexivity|assumption]|];
              first [ exact Hall | apply Forall_joined_replicate
                    | split; [lia|]; intros j th Hth; split; [lia|];
                      intros _; first
                        [ apply live_joinable; exact (proj1 (Forall_lookup _ _) Hall _ _ Hth)
                        | exact (proj1 (Forall_lookup _ _) Hall _ _ Hth) ] ]).
    all: try (destruct Hinv as (Hr & Hi & Hall); split; [assumption|]).
    (* joinThreads passes a slot *)
    all: try (split; [lia|]; intros j th Hth;
              destruct (decide (j = Z.to_nat i)) as [->|Hne];
              [ first [ rewrite list_lookup_insert_eq in Hth
                          by (eapply lookup_lt_Some; eassumption)
                      | idtac ];
                simplify_eq; split; intros; try lia; try reflexivity;
                try discriminate
              | first [ rewrite list_lookup_insert_ne in Hth by congruence | idtac ];
                destruct (Hall j th Hth) as [Hlo Hhi];
                split; intros; [apply Hlo|apply Hhi]; lia ]).
    (* joinThreads and createThreads leave their loops *)
    all: try (apply Forall_lookup; intros j th Hth;
              apply (Hall j th Hth); apply lookup_lt_Some in Hth; lia).
    all: try (apply Forall_lookup; intros j th Hth;
              apply (Hall j th Hth); apply lookup_lt_Some in Hth;
              destruct Hshape as (Hc & Hlen & Hle & _);
              unfold fallback in Hc; destruct (threadsCount =? 0) eqn:Hk;
              [apply Z.eqb_eq in Hk; subst; simpl in Hlen; lia|lia]).
  - (* a step of a worker *)
    unfold exec, worker in H.
    destruct (m_threads s !! i) as [[|pc]|] eqn:Hth;
      [destruct (owner s); discriminate| |destruct (owner s); discriminate].
    assert (Hins : forall pc' (R : thread -> Prop) v,
              v = m_threads s -> Forall R v -> R (Worker pc') ->
              Forall R (<[i:=Worker pc']> v)).
    { intros pc' R v -> Hall Hpc'. now apply Forall_insert. }
    assert (Hnj : Forall joined (m_threads s) -> False).
    { intros Hall. pose proof (proj1 (Forall_lookup _ _) Hall _ _ Hth). discriminate. }
    assert (Hs' : exists pc',
              m_threads s' = <[i:=Worker pc']> (m_threads s) /\
              m_running s' = m_running s /\ owner s' = owner s /\
              (m_running s = true -> pc' <> WDone)).
    { clear Hinv Hshape Hins Hnj. unfold exec, worker in H.
      step_cases H; eexists; repeat split; try reflexivity; try assumption;
        congruence. }
    destruct Hs' as (pc' & -> & -> & -> & Hpc'). clear H.
    destruct (owner s) eqn:Hown;
      try (destruct Hinv as (Hr & Hall); split; [assumption|];
           first [ apply Forall_insert; [assumption|exact (Hpc' Hr)]
                 | exfalso; exact (Hnj Hall) ]).
    + destruct Hinv as (Hr & Hi & Hall). split; [assumption|]. split; [assumption|].
      intros j th Hj. destruct (decide (j = i)) as [->|Hne].
      * rewrite list_lookup_insert_eq in Hj by (eapply lookup_lt_Some; eassumption).
        injection Hj as <-. destruct (Hall i _ Hth) as [Hlo Hhi].
        split; [intros Hlt; specialize (Hlo Hlt); discriminate|reflexivity].
      * rewrite list_lookup_insert_ne in Hj by congruence. exact (Hall j th Hj).
    + destruct Hinv as (Hr & Hi & Hall). split; [assumption|]. split; [assumption|].
      intros j th Hj. destruct (decide (j = i)) as [->|Hne].
      * rewrite list_lookup_insert_eq in Hj by (eapply lookup_lt_Some; eassumption).
        injection Hj as <-. destruct (Hall i _ Hth) as [Hlo Hhi].
        split; [intros _; exact (Hpc' Hr)|intros Hge; specialize (Hhi Hge); discriminate].
      * rewrite list_lookup_insert_ne in Hj by congruence. exact (Hall j th Hj).
  - step_cases H; try rewrite Heqo in *; exact Hinv.
  - step_cases H; try rewrite Heqo in *; exact Hinv.
Qed.

Lemma life_inv_reachable s : reachable P s -> life_inv s.
Proof.
  intros Hr. enough (shape_inv P s /\ life_inv s) by tauto.
  revert s Hr. apply reachable_invariant.
  - intros k Hk. split; [|apply life_inv_construct].
    apply shape_inv_reachable. exists k, []. auto.
  - intros l s s' [Hs Hl] H. split; [eapply shape_inv_step; eauto|].
    eapply life_inv_step; eauto.
Qed.

(** X1: in every state reached without a call having thrown, wherever
    the owner stands at a position at which the pool serves (outside
    every call, in [setPaused], [addTask] or [waitForTasks], or in
    [reset] or the destructor before [m_running] is cleared),
    [m_running] is set, [m_threads] holds exactly [getThreadsCount()]
    threads, and every one of them is a worker still inside its loop:
    no worker ever leaves its loop on its own. *)
Theorem pool_keeps_its_workers (s : pool) :
  reachable P s -> serving (owner s) = true ->
  m_running s = true /\
  length (m_threads s) = Z.to_nat (getThreadsCount s) /\
  Forall live (m_threads s).
Proof.
  intros Hr Hserv.
  pose proof (life_inv_reachable _ Hr) as Hl.
  pose proof (shape_inv_reachable P _ Hr) as Hs.
  unfold life_inv, shape_inv, getThreadsCount in *.
  destruct (owner s); try discriminate; tauto.
Qed.

(** X2: in every state reached without a call having thrown, the next
    step of the owning thread never destroys or overwrites a joinable
    [std::thread], which would call [std::terminate] (line 133 finds
    every old thread joined, line 144 assigns to an empty slot); it
    indexes [m_threads] out of bounds only in the first iteration of
    [createThreads] inside [reset(0)] on a platform whose concurrency
    hint is positive ([joinThreads] and the constructor's
    [createThreads] stay within the vector); and it throws
    [std::length_error] exactly at line 133 of [reset(k)] for [k] above
    the vector's [max_size()], after line 132 has stored the count and
    with [m_running] cleared. *)
Theorem owner_steps_fail_only_in_reset (s : pool) :
  reachable P s ->
  exec P LOwner s <> Terminated /\
  (exec P LOwner s = Undefined ->
   0 < hardware_concurrency P /\ m_threads s = [] /\
   exists wp, owner s = OCreate (BReset 0 wp) 0) /\
  (exec P LOwner s = Thrown <->
   exists k wp, owner s = OResetThreads k wp /\ max_size P < k) /\
  (exec P LOwner s = Thrown ->
   exists k, getThreadsCount s = fallback P k /\ max_size P < k /\
             m_running s = false).
Proof.
  intros Hr.
  enough (Hgoal :
    exec P LOwner s <> Terminated /\
    (exec P LOwner s = Undefined ->
     0 < hardware_concurrency P /\ m_threads s = [] /\
     exists wp, owner s = OCreate (BReset 0 wp) 0) /\
    (exec P LOwner s = Thrown ->
     exists k wp, owner s = OResetThreads k wp /\ max_size P < k /\
       getThreadsCount s = fallback P k /\ m_running s = false)).
  { destruct Hgoal as (Ht & Hu & Hx). split; [exact Ht|]. split; [exact Hu|].
    split; [split|].
    - intros H. destruct (Hx H) as (k & wp & Hown & Hmax & _). eauto.
    - intros (k & wp & Hown & Hmax). unfold exec, owner_step. rewrite Hown.
      apply Z.ltb_lt in Hmax. now rewrite Hmax.
    - intros H. destruct (Hx H) as (k & wp & _ & Hmax & Hc & Hrun). eauto. }
  pose proof (life_inv_reachable _ Hr) as Hl.
  pose proof (shape_inv_reachable P _ Hr) as Hs.
  unfold life_inv, shape_inv in *.
  unfold exec, owner_step.
  destruct (owner s) eqn:Hown;
    try (split; [discriminate|split; intros; discriminate]).
  - (* joinThreads *)
    destruct Hl as (_ & Hi & _).
    destruct (i <? m_threadsCount s) eqn:Hlt;
      [|split; [discriminate|split; intros; discriminate]].
    apply Z.ltb_lt in Hlt.
    destruct (lookup_lt_is_Some_2 (m_threads s) (Z.to_nat i)) as [th ->]; [lia|].
    destruct th as [|[]]; (split; [discriminate|split; intros; discriminate]).
  - (* line 133 *)
    destruct Hl as (Hrun & Hall).
    destruct (max_size P <? k) eqn:Hmax.
    + split; [discriminate|]. split; [intros; discriminate|].
      intros _. apply Z.ltb_lt in Hmax. eauto 10.
    + rewrite (Forall_joined_not_joinable _ Hall).
      split; [discriminate|split; intros; discriminate].
  - (* createThreads *)
    destruct Hl as (_ & Hi & Hall).
    destruct (i <? m_threadsCount s) eqn:Hlt;
      [|split; [discriminate|split; intros; discriminate]].
    apply Z.ltb_lt in Hlt.
    destruct (m_threads s !! Z.to_nat i) as [th|] eqn:Hth.
    + destruct (Hall _ _ Hth) as [_ Hj]. rewrite Hj by lia.
      split; [discriminate|split; intros; discriminate].
    + split; [discriminate|]. split; [|intros; discriminate]. intros _.
      apply lookup_ge_None in Hth.
      destruct b as [|k wp]; [lia|].
      destruct Hs as (Hc & Hlen & Hle & _).
      unfold fallback in Hc. destruct (k =? 0) eqn:Hk;
        [apply Z.eqb_eq in Hk; subst k|apply Z.eqb_neq in Hk; lia].
      change (Z.to_nat 0) with 0%nat in Hlen.
      assert (i = 0) as -> by lia.
      split; [lia|]. split; [now destruct (m_threads s)|]. eauto.
Qed.

(** X3: when the destructor has returned, [m_running] is cleared and
    every thread of [m_threads] has been joined, so that destroying the
    vector destroys no joinable thread. *)
Theorem destructor_joins_every_worker (s : pool) :
  reachable P s -> owner s = ODestroyed ->
  m_running s = false /\ Forall joined (m_threads s) /\
  existsb joinable (m_threads s) = false /\
  length (m_threads s) = Z.to_nat (getThreadsCount s).
Proof.
  intros Hr Hown.
  pose proof (life_inv_reachable _ Hr) as Hl.
  pose proof (shape_inv_reachable P _ Hr) as Hs.
  unfold life_inv, shape_inv, getThreadsCount in *. rewrite Hown in *.
  destruct Hl as (Hrun & Hall).
  auto using Forall_joined_not_joinable.
Qed.

End Life.

Section Resize.
Variable P : platform.

Lemma reset_k_inv_step k l s s' :
  is_call l = false -> reset_k_inv P k s -> exec P l s = Ok s' ->
  reset_k_inv P k s'.
Proof.
  unfold reset_k_inv. intros Hl Hinv H.
  step_cases H; simpl in *; try discriminate; try rewrite Heqo in *;
    rewrite ?length_insert, ?length_replicate;
    try assumption; try contradiction;
    repeat match goal with
    | w : waiter |- _ => destruct w
    | d : teardown |- _ => destruct d
    | b : builder |- _ => destruct b
    end; simpl in *; rewrite ?length_insert, ?length_replicate;
    try assumption; try contradiction; try tauto;
    try (subst; tauto); try (destruct Hinv as (-> & ?); auto).
Qed.

(** What [reset(k)] has made of the count and of the vector when it
    returns. *)
Lemma reset_returns_sized (s : pool) (k : Z) (sched : list label) (s' : pool) :
  reachable P s -> owner s = OIdle -> no_calls sched ->
  run P (LCall (OpReset k) :: sched) s = Ok s' -> owner s' = OIdle ->
  m_threadsCount s' = fallback P k /\
  length (m_threads s') = Z.to_nat k /\
  length (m_threads s') = Z.to_nat (m_threadsCount s') /\
  m_paused s' = false.
Proof.
  intros Hreach Hown Hnc Hrun Hret.
  pose proof (reachable_run P _ _ _ Hreach Hrun) as Hreach'.
  pose proof (shape_inv_reachable P _ Hreach') as Hlen.
  unfold shape_inv in Hlen. rewrite Hret in Hlen.
  simpl in Hrun. unfold exec, call in Hrun. rewrite Hown in Hrun.
  assert (Hk : reset_k_inv P k s').
  { eapply (run_invariant_no_calls P (reset_k_inv P k));
      eauto using reset_k_inv_step. reflexivity. }
  assert (Hp : reset_inv s').
  { eapply (run_invariant_no_calls P reset_inv); eauto using reset_inv_step.
    exact I. }
  unfold reset_k_inv, reset_inv in *. rewrite Hret in *.
  destruct Hk as (Hc & Hlk). auto.
Qed.

(** X4: whenever [reset(k)] returns, whatever the other threads did
    meanwhile, [getThreadsCount()] is [k], or the platform's hint for
    [k = 0]; [m_threads] holds exactly that many threads, each a worker
    inside its loop; and the pool is running and not paused.  A
    [reset(0)] therefore returns only where the hint is not positive. *)
Theorem reset_returns_resized (s : pool) (k : Z) (sched : list label) (s' : pool) :
  reachable P s -> owner s = OIdle -> no_calls sched ->
  run P (LCall (OpReset k) :: sched) s = Ok s' -> owner s' = OIdle ->
  getThreadsCount s' = fallback P k /\
  length (m_threads s') = Z.to_nat (getThreadsCount s') /\
  length (m_threads s') = Z.to_nat k /\
  Forall live (m_threads s') /\
  m_running s' = true /\ m_paused s' = false /\
  (k = 0 -> hardware_concurrency P <= 0).
Proof.
  intros Hreach Hown Hnc Hrun Hret.
  pose proof (reachable_run P _ _ _ Hreach Hrun) as Hreach'.
  pose proof (life_inv_reachable P _ Hreach') as Hlife.
  unfold life_inv in Hlife. rewrite Hret in Hlife.
  destruct Hlife as (Hr & Hlive).
  destruct (reset_returns_sized s k sched s' Hreach Hown Hnc Hrun Hret)
    as (Hc & Hlk & Hlen & Hp).
  unfold getThreadsCount. repeat split; try assumption.
  intros ->. rewrite Hc in Hlen. unfold fallback in Hlen. simpl in Hlen.
  rewrite Hlk in Hlen. change (Z.to_nat 0) with 0%nat in Hlen. lia.
Qed.

(** X5: from every reachable pool whose owner is outside a call,
    [reset(k)] can be run to its return, for every [k] within the
    vector's [max_size()] other than 0 (and for 0 where the hint is 0):
    the old workers can always be drained, stopped and joined, and the
    new ones created.  The pool then has [k] workers, each inside its
    loop. *)
Theorem reset_can_return (s : pool) (k : Z) :
  reachable P s -> owner s = OIdle -> k <= max_size P ->
  Z.to_nat (fallback P k) = Z.to_nat k ->
  exists sched s',
    no_calls sched /\ run P (LCall (OpReset k) :: sched) s = Ok s' /\
    owner s' = OIdle /\ getThreadsCount s' = fallback P k /\
    length (m_threads s') = Z.to_nat k /\ Forall live (m_threads s') /\
    m_paused s' = false /\ m_running s' = true.
Proof.
  intros Hreach Hown Hmax Hk.
  destruct (reset_completes P s k Hreach Hown Hmax Hk)
    as (sched & s' & Hnc & Hrun & Hret & Hc & Hlen & Hp & Hr).
  exists sched, s'.
  pose proof (life_inv_reachable P _ (reachable_run P _ _ _ Hreach Hrun)) as Hlife.
  unfold life_inv in Hlife. rewrite Hret in Hlife.
  rewrite Hc, Hk in Hlen. tauto.
Qed.

(** X16: the repository's test [checkThreadPoolReset] calls
    [reset(hardware_concurrency() / 2)] and then
    [reset(hardware_concurrency())].  If the first call returns, the
    hint is not 1 (it is 0, or the machine reports at least two cores),
    and both checks of the test hold: [getThreadsCount()] is half the
    hint after the first call and the hint after the second, whenever
    that returns.  On a machine reporting one core the first call is
    [reset(0)] and does not return. *)
Theorem checkThreadPoolReset_checks (s s1 : pool) (sched1 : list label) :
  reachable P s -> owner s = OIdle -> 0 <= hardware_concurrency P ->
  no_calls sched1 ->
  run P (LCall (OpReset (hardware_concurrency P / 2)) :: sched1) s = Ok s1 ->
  owner s1 = OIdle ->
  hardware_concurrency P <> 1 /\
  getThreadsCount s1 = hardware_concurrency P / 2 /\
  forall sched2 s2,
    no_calls sched2 ->
    run P (LCall (OpReset (hardware_concurrency P)) :: sched2) s1 = Ok s2 ->
    owner s2 = OIdle ->
    getThreadsCount s2 = hardware_concurrency P.
Proof.
  intros Hreach Hown Hhc Hnc Hrun Hret.
  destruct (reset_returns_sized s _ sched1 s1 Hreach Hown Hnc Hrun Hret)
    as (Hc & Hlk & Hlen & _).
  assert (Hone : hardware_concurrency P <> 1).
  { intros Hone. rewrite Hc, Hlk, Hone in Hlen. change (1 / 2) with 0 in Hlen.
    unfold fallback in Hlen. rewrite Hone in Hlen. simpl in Hlen. lia. }
  split; [assumption|]. split.
  - unfold getThreadsCount. rewrite Hc. unfold fallback.
    destruct (hardware_concurrency P / 2 =? 0) eqn:Hz; [|reflexivity].
    apply Z.eqb_eq in Hz. rewrite Hz.
    destruct (Z_lt_le_dec (hardware_concurrency P) 2) as [Hlt|Hge]; [lia|].
    assert (0 < hardware_concurrency P / 2) by (apply Z.div_str_pos; lia). lia.
  - intros sched2 s2 Hnc2 Hrun2 Hret2.
    pose proof (reachable_run P _ _ _ Hreach Hrun) as Hreach1.
    destruct (reset_returns_sized s1 _ sched2 s2 Hreach1 Hret Hnc2 Hrun2 Hret2)
      as (Hc2 & _).
    unfold getThreadsCount. rewrite Hc2. unfold fallback.
    destruct (hardware_concurrency P =? 0) eqn:Hz; reflexivity.
Qed.

End Resize.

Section Constructor.
Variable P : platform.

Lemma createThreads_creates c i m :
  Z.to_nat c = (i + S m)%nat ->
  exec P LOwner (building c i (S m)) = Ok (building c (S i) m).
Proof.
  intros Hc. unfold exec, owner_step. simpl owner. cbv beta iota.
  replace (Z.of_nat i <? m_threadsCount (building c i (S m))) with true
    by (symmetry; apply Z.ltb_lt; simpl; lia).
  cbn [m_threads building]. rewrite Nat2Z.id.
  rewrite lookup_app_r by (rewrite length_replicate; lia).
  rewrite length_replicate, Nat.sub_diag. cbn [replicate lookup list_lookup].
  f_equal. unfold building, set_owner, set_thread, set_threads. pool_simpl.
  f_equal.
  - rewrite insert_app_r_alt by (rewrite length_replicate; lia).
    rewrite length_replicate, Nat.sub_diag. simpl.
    change (Worker WLoop :: replicate i (Worker WLoop) ++ replicate m NotAThread)
      with (replicate (S i) (Worker WLoop) ++ replicate m NotAThread).
    rewrite replicate_S_end, <- app_assoc. reflexivity.
  - f_equal. lia.
Qed.

Lemma createThreads_builds c m : forall i,
  Z.to_nat c = (i + m)%nat ->
  run P (repeat LOwner (S m)) (building c i m)
  = Ok (set_owner OIdle (building c (i + m) 0)).
Proof.
  induction m as [|m IH]; intros i Hc.
  - simpl. unfold exec, owner_step. simpl.
    replace (Z.of_nat i <? c) with false by (symmetry; apply Z.ltb_ge; lia).
    unfold set_owner, building. simpl. now rewrite Nat.add_0_r.
  - change (repeat LOwner (S (S m))) with (LOwner :: repeat LOwner (S m)).
    cbn [run]. rewrite createThreads_creates by exact Hc.
    rewrite IH by lia. do 3 f_equal. lia.
Qed.

Lemma ctor_inv_step k l s s' :
  during_construction l = true -> ctor_inv P k s -> exec P l s = Ok s' ->
  ctor_inv P k s'.
Proof.
  unfold ctor_inv.
  intros Hl (Hc & Hp & Hr & Hq & Ht & Hex & Hsub & Hown & Hall) H.
  step_cases H; try discriminate Hl; rewrite ?Heqo in Hown;
    try contradiction.
  all: repeat match goal with
       | b : builder |- _ => destruct b; try contradiction
       end.
  all: try match goal with
       | Hth : m_threads _ !! _ = Some (Worker _) |- _ =>
           pose proof (proj1 (Forall_lookup _ _) Hall _ _ Hth) as Hw;
           simpl in Hw; try contradiction
       end.
  all: rewrite ?Hr, ?Hp in *.
  all: repeat split; try assumption; try exact I; try congruence.
  all: apply Forall_insert; [assumption|exact I].
Qed.

Lemma ctor_inv_run k sched : forall s s',
  forallb during_construction sched = true -> ctor_inv P k s ->
  run P sched s = Ok s' -> ctor_inv P k s'.
Proof.
  induction sched as [|l sched IH]; intros s s' Hl Hinv Hrun; simpl in *.
  - now injection Hrun as <-.
  - apply andb_prop in Hl as [Hl Hrest].
    destruct (exec P l s) as [s1| | | |] eqn:He; try discriminate.
    eauto using ctor_inv_step.
Qed.

Lemma ctor_inv_construct k : ctor_inv P k (construct P k).
Proof.
  unfold ctor_inv, construct. simpl. repeat split; try exact I.
  apply Forall_forall. intros th Hin. apply elem_of_replicate in Hin as [-> _].
  exact I.
Qed.

(** X6: the constructor.  For an argument within [size_t] whose
    fallback-adjusted count exceeds the vector's [max_size()], the member
    initialiser of line 43 throws and no pool is built.  Otherwise the
    constructor can run to its end, and whenever it has returned,
    whatever the workers it started did in the meantime,
    [getThreadsCount()] is the argument (the platform's hint for the
    argument 0), [m_threads] holds exactly that many workers, each inside
    its loop, the pool is running and not paused, nothing is queued or
    has been called, and the three task counts are 0. *)
Theorem constructor_starts_workers (threadsCount : Z) :
  0 <= threadsCount < modulus P ->
  (max_size P < fallback P threadsCount -> ThreadPool P threadsCount = Thrown) /\
  (fallback P threadsCount <= max_size P ->
   ThreadPool P threadsCount = Ok (construct P threadsCount) /\
   run P (repeat LOwner (S (Z.to_nat (fallback P threadsCount))))
       (construct P threadsCount)
   = Ok (fresh_pool P threadsCount) /\
   forall sched s,
     forallb during_construction sched = true ->
     run P sched (construct P threadsCount) = Ok s -> owner s = OIdle ->
     getThreadsCount s = fallback P threadsCount /\
     length (m_threads s) = Z.to_nat (fallback P threadsCount) /\
     Forall live (m_threads s) /\
     m_running s = true /\ m_paused s = false /\
     m_tasks s = [] /\ executed s = [] /\
     counts P (Ok s) = Some (0, 0, 0)).
Proof.
  intros Hk. split.
  - intros Hmax. unfold ThreadPool.
    apply Z.ltb_lt in Hmax. now rewrite Hmax.
  - intros Hmax. split; [|split].
    + unfold ThreadPool. apply Z.ltb_ge in Hmax. now rewrite Hmax.
    + change (construct P threadsCount)
        with (building (fallback P threadsCount) 0
                (Z.to_nat (fallback P threadsCount))).
      rewrite createThreads_builds by reflexivity.
      unfold set_owner, building, fresh_pool. simpl. now rewrite app_nil_r.
    + intros sched s Hl Hrun Hown.
      assert (Hreach : reachable P s) by (exists threadsCount, sched; auto).
      pose proof (life_inv_reachable P _ Hreach) as Hlife.
      pose proof (shape_inv_reachable P _ Hreach) as Hshape.
      unfold life_inv, shape_inv in Hlife, Hshape.
      rewrite Hown in Hlife, Hshape. destruct Hlife as (Hr & Hlive).
      destruct (ctor_inv_run _ _ _ _ Hl (ctor_inv_construct threadsCount) Hrun)
        as (Hc & Hp & _ & Hq & Ht & Hex & _).
      unfold getThreadsCount. rewrite <- Hc.
      repeat split; try assumption.
      unfold counts, running_now, getTasksRunningCount, size_sub, wrap,
        getTasksTotalCount, getTasksQueuedCount.
      rewrite Ht, Hq. simpl. now rewrite Zmod_0_l.
Qed.

End Constructor.

Section Barrier.
Variable P : platform.



End Barrier.

Section Completion.
Variable P : platform.

Lemma exec_worker i s pc :
  owner s <> ODestroyed -> m_threads s !! i = Some (Worker pc) ->
  exec P (LWorker i) s =
  match pc with
  | WLoop => Ok (set_thread i (Worker (if m_running s then WCheckPaused else WDone)) s)
  | WCheckPaused => Ok (set_thread i (Worker (if m_paused s then WYield else WPop)) s)
  | WPop =>
      match popTask (m_tasks s) with
      | (Some c, q) => Ok (set_thread i (Worker (WRun c)) (set_tasks q s))
      | (None, q) => Ok (set_thread i (Worker WYield) (set_tasks q s))
      end
  | WRun c => Ok (set_thread i (Worker WDec) (log_call c s))
  | WDec => Ok (set_thread i (Worker WLoop)
                  (set_total (size_dec P (m_tasksTotalCount s)) s))
  | WYield => Ok (set_thread i (Worker WLoop) s)
  | WDone => Blocked
  end.
Proof.
  intros Halive Hth. rewrite (exec_alive _ _ _ Halive). unfold worker.
  now rewrite Hth.
Qed.

Lemma run_step l rest s s1 r :
  exec P l s = Ok s1 -> run P rest s1 = r -> run P (l :: rest) s = r.
Proof. intros H <-. simpl. now rewrite H. Qed.

Lemma task_done_eq i c q s s' :
  m_tasks s' = q -> m_threads s' = <[i:=Worker WLoop]> (m_threads s) ->
  m_threadsCount s' = m_threadsCount s ->
  m_tasksTotalCount s' = size_dec P (m_tasksTotalCount s) ->
  m_running s' = m_running s -> m_paused s' = m_paused s ->
  owner s' = owner s -> submitting s' = submitting s ->
  executed s' = c :: executed s ->
  s' = task_done P i c q s.
Proof.
  destruct s'. unfold task_done. simpl. intros. now subst.
Qed.

Ltac here :=
  pool_simpl;
  first [assumption
        | apply list_lookup_insert_eq; rewrite ?length_insert; assumption
        | rewrite ?length_insert; assumption].

Ltac worker_step i pc :=
  eapply run_step;
  [rewrite (exec_worker i _ pc) by here; pool_simpl; reflexivity|].

Lemma worker_takes_task_from_pop i s c q :
  owner s <> ODestroyed ->
  m_threads s !! i = Some (Worker WPop) -> m_tasks s = c :: q ->
  run P (repeat (LWorker i) 3) s = Ok (task_done P i c q s).
Proof.
  intros Halive Hth Hq.
  pose proof (lookup_lt_Some _ _ _ Hth) as Hlt.
  eapply run_step.
  { rewrite (exec_worker i s WPop Halive Hth), Hq. reflexivity. }
  worker_step i (WRun c). worker_step i WDec.
  cbn [repeat run]. f_equal. apply task_done_eq; pool_simpl; try reflexivity.
  now rewrite !list_insert_insert_eq.
Qed.

Lemma worker_takes_task i s pc c q :
  owner s <> ODestroyed -> m_running s = true -> m_paused s = false ->
  m_threads s !! i = Some (Worker pc) -> settled (Worker pc) -> pc <> WDone ->
  m_tasks s = c :: q ->
  leads P s (task_done P i c q s).
Proof.
  intros Halive Hr Hp Hth Hset Hpc Hq.
  pose proof (lookup_lt_Some _ _ _ Hth) as Hlt.
  assert (Hcheck : forall s1, owner s1 <> ODestroyed -> m_paused s1 = false ->
            m_threads s1 !! i = Some (Worker WCheckPaused) -> m_tasks s1 = c :: q ->
            run P (repeat (LWorker i) 4) s1 = Ok (task_done P i c q s1)).
  { intros s1 Ha1 Hp1 Hth1 Hq1.
    pose proof (lookup_lt_Some _ _ _ Hth1) as Hlt1.
    eapply run_step.
    { rewrite (exec_worker i s1 WCheckPaused Ha1 Hth1), Hp1. reflexivity. }
    etransitivity; [apply (worker_takes_task_from_pop i _ c q); here|].
    f_equal. symmetry. apply task_done_eq; unfold task_done; pool_simpl;
      try reflexivity. now rewrite !list_insert_insert_eq. }
  assert (Hloop : forall s1, owner s1 <> ODestroyed -> m_running s1 = true ->
            m_paused s1 = false ->
            m_threads s1 !! i = Some (Worker WLoop) -> m_tasks s1 = c :: q ->
            run P (repeat (LWorker i) 5) s1 = Ok (task_done P i c q s1)).
  { intros s1 Ha1 Hr1 Hp1 Hth1 Hq1.
    pose proof (lookup_lt_Some _ _ _ Hth1) as Hlt1.
    eapply run_step.
    { rewrite (exec_worker i s1 WLoop Ha1 Hth1), Hr1. reflexivity. }
    etransitivity; [apply Hcheck; here|].
    f_equal. symmetry. apply task_done_eq; unfold task_done; pool_simpl;
      try reflexivity. now rewrite !list_insert_insert_eq. }
  destruct pc; try discriminate Hset; try congruence.
  - exists (repeat (LWorker i) 5). split; [reflexivity|]. now apply Hloop.
  - exists (repeat (LWorker i) 4). split; [reflexivity|]. now apply Hcheck.
  - exists (LWorker i :: repeat (LWorker i) 5). split; [reflexivity|].
    eapply run_step.
    { rewrite (exec_worker i s WYield Halive Hth). reflexivity. }
    etransitivity; [apply Hloop; here|].
    f_equal. symmetry. apply task_done_eq; unfold task_done; pool_simpl;
      try reflexivity. now rewrite !list_insert_insert_eq.
Qed.

Lemma task_done_only_worker i c q s :
  (i < length (m_threads s))%nat -> only_worker i s (task_done P i c q s).
Proof.
  intros Hlt. unfold only_worker, task_done. pool_simpl.
  rewrite length_insert. repeat split; auto.
  intros j Hj. apply list_lookup_insert_ne. congruence.
Qed.

(** With the pool running and not paused, one worker inside its loop can
    empty the queue, calling the tasks in the order they were queued. *)
Lemma drain_queue n : forall s i pc,
  length (m_tasks s) = n -> owner s <> ODestroyed ->
  m_running s = true -> m_paused s = false ->
  m_threads s !! i = Some (Worker pc) -> settled (Worker pc) -> pc <> WDone ->
  exists s', leads P s s' /\ only_worker i s s' /\ m_tasks s' = [] /\
    executed s' = rev (m_tasks s) ++ executed s /\
    exists pc', m_threads s' !! i = Some (Worker pc') /\ settled (Worker pc').
Proof.
  induction n as [|n IH]; intros s i pc Hn Halive Hr Hp Hth Hset Hpc.
  - exists s. destruct (m_tasks s); [|discriminate].
    split; [apply leads_refl|]. split; [apply only_worker_refl|].
    split; [reflexivity|]. split; [reflexivity|]. exists pc. auto.
  - destruct (m_tasks s) as [|c q] eqn:Hq; [discriminate|].
    pose proof (lookup_lt_Some _ _ _ Hth) as Hlt.
    pose proof (worker_takes_task i s pc c q Halive Hr Hp Hth Hset Hpc Hq) as Hl.
    pose proof (task_done_only_worker i c q s Hlt) as Ho.
    assert (Hth1 : m_threads (task_done P i c q s) !! i = Some (Worker WLoop)).
    { unfold task_done. pool_simpl. now apply list_lookup_insert_eq. }
    assert (Hn1 : length (m_tasks (task_done P i c q s)) = n).
    { unfold task_done. pool_simpl. simpl in Hn. lia. }
    destruct (IH (task_done P i c q s) i WLoop Hn1)
      as (s' & Hl' & Ho' & Hq' & Hex' & Hpc'); try assumption;
      try reflexivity; try discriminate.
    exists s'. split; [exact (leads_trans _ _ _ _ Hl Hl')|].
    split; [exact (only_worker_trans _ _ _ _ Ho Ho')|]. split; [assumption|].
    split; [|assumption].
    rewrite Hex'. unfold task_done. pool_simpl. simpl. now rewrite <- app_assoc.
Qed.


(** With the pool not paused, nothing submitted to it in the meantime and
    at least one worker, [waitForTasks] can be run to its return from
    line 108, the workers having emptied the queue. *)
Lemma unpaused_wait_completes (s : pool) (w : waiter) :
  reachable P s -> owner s = OWait w -> m_paused s = false ->
  0 < getThreadsCount s ->
  exists sched s1 s',
    no_calls sched /\ run P sched s = Ok s1 /\ wait_returns P w s1 s' /\
    m_paused s' = false /\ m_tasks s' = [] /\ getTasksTotalCount s' = 0 /\
    submitting s' = [] /\ Forall settled (m_threads s').
Proof.
  intros Hreach Hown Hp Hn.
  assert (Halive : owner s <> ODestroyed) by (rewrite Hown; discriminate).
  pose proof (flush_submitting P (submitting s) s eq_refl Halive) as Hl1.
  set (s1 := set_submitting [] (set_tasks (m_tasks s ++ submitting s) s)) in *.
  destruct (settle_all P s1) as (s2 & Hl2 & (Hp2 & Hr2 & Ho2 & Hs2 & Hc2 & Hlen2) & Hset2);
    [exact Halive|].
  subst s1. pool_simpl.
  pose proof (leads_trans _ _ _ _ Hl1 Hl2) as Hl02.
  pose proof (leads_reachable _ _ _ Hreach Hl02) as Hreach2.
  pose proof (life_inv_reachable P _ Hreach2) as Hlife.
  pose proof (shape_inv_reachable P _ Hreach2) as Hshape.
  unfold life_inv, shape_inv in Hlife, Hshape.
  rewrite Ho2, Hown in Hlife, Hshape. destruct Hlife as (Hrun2 & Hlive2).
  assert (Halive2 : owner s2 <> ODestroyed) by congruence.
  destruct (lookup_lt_is_Some_2 (m_threads s2) 0%nat) as [th Hth].
  { unfold getThreadsCount in Hn. lia. }
  pose proof (proj1 (Forall_lookup _ _) Hlive2 _ _ Hth) as Hlv.
  pose proof (proj1 (Forall_lookup _ _) Hset2 _ _ Hth) as Hst.
  destruct th as [|pc]; [destruct Hlv|]. simpl in Hlv.
  destruct (drain_queue _ s2 0%nat pc eq_refl Halive2 Hrun2 ltac:(congruence) Hth Hst Hlv)
    as (s3 & Hl3 & (Hp3 & Hr3 & Ho3 & Hs3 & Hc3 & Hlen3 & Hoth3) & Hq3 & _ & pc3 & Hth3 & Hst3).
  pose proof (leads_trans _ _ _ _ Hl02 Hl3) as Hl03.
  pose proof (leads_reachable _ _ _ Hreach Hl03) as Hreach3.
  assert (Hset3 : Forall settled (m_threads s3)).
  { apply Forall_lookup. intros j th Hj. destruct (decide (j = 0%nat)) as [->|Hne].
    - rewrite Hth3 in Hj. now injection Hj as <-.
    - rewrite Hoth3 in Hj by assumption.
      exact (proj1 (Forall_lookup _ _) Hset2 _ _ Hj). }
  assert (Htot : m_tasksTotalCount s3 = 0).
  { pose proof (counter_inv_reachable P _ Hreach3) as Hc.
    unfold counter_inv, outstanding in Hc.
    rewrite (busy_workers_settled _ Hset3), Hq3, Hs3, Hs2, Ho3, Ho2, Hown in Hc.
    simpl in Hc. rewrite Hc. apply Zmod_0_l. }
  destruct Hl03 as (sched & Hnc & Hrun).
  set (s4 := set_owner (OWaitTotal w) s3).
  exists (sched ++ [LOwner]), s4, (set_owner (after_wait w) s4).
  split; [unfold no_calls in *; rewrite forallb_app, Hnc; reflexivity|].
  assert (Ho3' : owner s3 = OWait w) by congruence.
  assert (Hp3' : m_paused s3 = false) by congruence.
  split.
  { rewrite run_app, Hrun. simpl. unfold exec, owner_step.
    rewrite Ho3', Hp3'. reflexivity. }
  split.
  { split; [left; reflexivity|]. split; [|reflexivity].
    unfold exec, owner_step. subst s4. pool_simpl. rewrite Htot. reflexivity. }
  subst s4. pool_simpl. unfold getTasksTotalCount. pool_simpl.
  repeat split; try assumption; congruence.
Qed.

(** X8: with the pool not paused and at least one worker thread,
    [waitForTasks] can always return: from any point at which it stands
    at the head of its loop, the other threads can be scheduled so that
    the concurrent [addTask] calls complete, the workers empty the queue
    and [waitForTasks] leaves its loop at line 108, with nothing queued
    and the counter at 0. *)
Theorem waitForTasks_can_return (s : pool) (w : waiter) :
  reachable P s -> owner s = OWait w -> m_paused s = false ->
  0 < getThreadsCount s ->
  exists sched s1 s',
    no_calls sched /\ run P sched s = Ok s1 /\ wait_returns P w s1 s' /\
    m_paused s' = false /\ m_tasks s' = [] /\ getTasksTotalCount s' = 0 /\
    submitting s' = [].
Proof.
  intros Hreach Hown Hp Hn.
  destruct (unpaused_wait_completes s w Hreach Hown Hp Hn)
    as (sched & s1 & s' & H1 & H2 & H3 & H4 & H5 & H6 & H7 & _).
  exists sched, s1, s'. auto 10.
Qed.




End Completion.

Section Workerless.
Variable P : platform.

Lemma workerless_step l s s' w :
  counter_inv P s -> m_threads s = [] -> m_paused s = false ->
  in_wait_loop w (owner s) -> 0 < outstanding s < modulus P ->
  exec P l s = Ok s' ->
  m_threads s' = [] /\ m_paused s' = false /\ in_wait_loop w (owner s') /\
  outstanding s <= outstanding s' <= outstanding s + 1 /\
  executed s' = executed s /\
  exists added, m_tasks s' = m_tasks s ++ added.
Proof.
  intros Hc Ht Hp Hw Hout H.
  assert (Htot : m_tasksTotalCount s <> 0).
  { unfold counter_inv in Hc. rewrite Hc, wrap_small; lia. }
  unfold in_wait_loop in *.
  step_cases H.
  all: try (rewrite Ht in *; discriminate).
  all: try (destruct Hw as [Hw|[Hw|Hw]]; discriminate).
  all: try (apply Z.eqb_eq in Heqb; contradiction).
  all: assert (w0 = w) as -> by (destruct Hw as [Hw|[Hw|Hw]]; congruence).
  all: repeat match goal with
       | Hsub : submitting _ !! _ = Some _ |- _ =>
           apply length_delete_lookup in Hsub
       end.
  all: unfold outstanding in *; pool_simpl;
       rewrite ?length_app, ?Heqo in *; simpl in *.
  all: repeat split; auto; try lia.
  all: try (exists []; now rewrite app_nil_r).
  all: eauto.
Qed.

(** X10: a pool without worker threads (constructed with 0 on a
    platform whose concurrency hint is 0) never completes a task: once
    [waitForTasks], called by the user or by the destructor, stands in
    its loop with the pool not paused and a task outstanding, it stays
    in that loop, however the threads are scheduled (for schedules short
    of overflowing the counter): no task is called, the counter stays
    non-zero and the queue only grows.  So neither [waitForTasks] nor the
    destructor returns. *)
Theorem workerless_pool_never_drains
    (s s' : pool) (w : waiter) (sched : list label) :
  reachable P s -> m_threads s = [] -> m_paused s = false ->
  owner s = OWait w -> 0 < outstanding s ->
  outstanding s + Z.of_nat (length sched) < modulus P ->
  run P sched s = Ok s' ->
  in_wait_loop w (owner s') /\ owner s' <> after_wait w /\
  executed s' = executed s /\ m_tasksTotalCount s' <> 0 /\
  exists added, m_tasks s' = m_tasks s ++ added.
Proof.
  intros Hreach Ht Hp Hown Hpos Hfit Hrun.
  assert (Hw : in_wait_loop w (owner s)) by (left; assumption).
  clear Hown.
  enough (Hgoal : in_wait_loop w (owner s') /\ executed s' = executed s /\
                  0 < outstanding s' < modulus P /\
                  exists added, m_tasks s' = m_tasks s ++ added).
  { destruct Hgoal as (Hw' & Hex & Hout' & Hadd).
    split; [assumption|]. split.
    { destruct Hw' as [Hw'|[Hw'|Hw']]; rewrite Hw'; destruct w; discriminate. }
    split; [assumption|]. split; [|assumption].
    pose proof (counter_inv_reachable P _ (reachable_run P _ _ _ Hreach Hrun)) as Hc.
    unfold counter_inv in Hc. rewrite Hc, wrap_small; lia. }
  revert s Hreach Ht Hp Hpos Hfit Hrun Hw.
  induction sched as [|l sched IH]; intros s Hreach Ht Hp Hpos Hfit Hrun Hw.
  - injection Hrun as <-. simpl in Hfit. split; [assumption|].
    split; [reflexivity|]. split; [lia|]. exists []. now rewrite app_nil_r.
  - simpl in Hrun. destruct (exec P l s) as [s1| | | |] eqn:Hl; try discriminate.
    simpl length in Hfit.
    destruct (workerless_step l s s1 w (counter_inv_reachable P _ Hreach)
                Ht Hp Hw ltac:(lia) Hl)
      as (Ht1 & Hp1 & Hw1 & Hout1 & Hex1 & added1 & Hq1).
    destruct (IH s1) as (Hw' & Hex' & Hout' & added & Hq'); auto; try lia.
    { eapply reachable_step; eauto. }
    split; [assumption|]. split; [congruence|]. split; [assumption|].
    exists (added1 ++ added). now rewrite Hq', Hq1, app_assoc.
Qed.

End Workerless.

Section Fifo.
Variable P : platform.

Lemma outside_reset_step l s s' :
  in_reset (owner s) = false -> is_reset l = false -> exec P l s = Ok s' ->
  in_reset (owner s') = false /\ length (m_threads s') = length (m_threads s) /\
  m_threadsCount s' = m_threadsCount s.
Proof.
  intros Hin Hl H.
  step_cases H; rewrite ?Heqo in *; simpl in *; try discriminate;
    rewrite ?length_insert; auto.
  - destruct o; simpl in *; try discriminate; auto.
  - destruct w as [|[]]; simpl in *; try discriminate; auto.
  - destruct w as [|[]]; simpl in *; try discriminate; auto.
  - destruct w as [|[]]; simpl in *; try discriminate; auto.
  - destruct d; simpl in *; try discriminate; auto.
Qed.

(** X15: [getThreadsCount()] and the number of threads in [m_threads]
    change only inside [reset]: no call of [setPaused], [addTask],
    [waitForTasks] or of the destructor, no step of a worker and no
    concurrent [addTask] alters them. *)
Theorem thread_count_fixed_outside_reset (s s' : pool) (sched : list label) :
  in_reset (owner s) = false -> no_resets sched -> run P sched s = Ok s' ->
  getThreadsCount s' = getThreadsCount s /\
  length (m_threads s') = length (m_threads s) /\
  in_reset (owner s') = false.
Proof.
  revert s. induction sched as [|l sched IH]; intros s Hin Hnr Hrun.
  - injection Hrun as <-. auto.
  - simpl in Hrun. destruct (exec P l s) as [s1| | | |] eqn:Hl; try discriminate.
    unfold no_resets in Hnr. simpl in Hnr. apply andb_prop in Hnr as [Hl0 Hnr].
    apply negb_true_iff in Hl0.
    destruct (outside_reset_step _ _ _ Hin Hl0 Hl) as (Hin1 & Hlen1 & Hc1).
    destruct (IH s1 Hin1 Hnr Hrun) as (Hc & Hlen & Hin').
    unfold getThreadsCount in *. repeat split; congruence.
Qed.

Lemma one_thread_holds (v : list thread) :
  (length v <= 1)%nat -> (length (concat (map dequeued v)) <= 1)%nat.
Proof.
  destruct v as [|th [|th' v]]; simpl; intros; try lia.
  rewrite app_nil_r. destruct th as [|[]]; simpl; lia.
Qed.

Lemma short_Permutation (a b : list task) :
  (length a <= 1)%nat -> a ≡ₚ b -> a = b.
Proof.
  intros Hlen Hp. destruct a as [|x [|y a]]; simpl in Hlen; try lia.
  - symmetry. now apply Permutation_nil.
  - symmetry. now apply Permutation_length_1_inv.
Qed.

Lemma timeline_step l s s' :
  (length (m_threads s) <= 1)%nat ->
  (length (m_threads s') <= 1)%nat ->
  exec P l s = Ok s' ->
  exists added, timeline s' = timeline s ++ added.
Proof.
  intros Hlen Hlen' H.
  pose proof (one_thread_holds _ Hlen) as Hh.
  pose proof (one_thread_holds _ Hlen') as Hh'.
  fold (in_flight s) in Hh. fold (in_flight s') in Hh'.
  unfold timeline.
  destruct (step_effect P _ _ _ H) as [Hq Hex Hf|c Hq Hex Hf|c i _ Hq Hex Hf|c Hq Hex Hf].
  - apply short_Permutation in Hf; [|assumption].
    exists []. now rewrite Hq, Hex, Hf, app_nil_r.
  - apply short_Permutation in Hf; [|assumption].
    exists [c]. rewrite Hq, Hex, Hf, <- !app_assoc. reflexivity.
  - apply short_Permutation in Hf; [|assumption].
    assert (in_flight s = []) as Hnil.
    { rewrite Hf in Hh'. destruct (in_flight s); [reflexivity|simpl in Hh'; lia]. }
    exists []. rewrite Hq, Hex, Hf, Hnil, app_nil_r. reflexivity.
  - apply short_Permutation in Hf; [|assumption].
    assert (in_flight s' = []) as Hnil.
    { rewrite Hf in Hh. destruct (in_flight s'); [reflexivity|simpl in Hh; lia]. }
    exists []. rewrite Hq, Hex, Hf, Hnil, app_nil_r. simpl.
    now rewrite <- app_assoc.
Qed.

(** X11: in a pool with a single worker thread, tasks are called in the
    order in which they were pushed: the call log, followed by the task
    the worker holds and by the queue, only ever grows at its end,
    whatever the owner (short of [reset]), the worker and other
    submitting threads do.  So a task is called only after every task
    pushed before it has been called. *)
Theorem single_worker_runs_in_order (s s' : pool) (sched : list label) :
  (length (m_threads s) <= 1)%nat -> in_reset (owner s) = false ->
  no_resets sched -> run P sched s = Ok s' ->
  exists added, timeline s' = timeline s ++ added.
Proof.
  unfold timeline. revert s. induction sched as [|l sched IH]; intros s Hlen Hin Hnr Hrun.
  - injection Hrun as <-. exists []. now rewrite app_nil_r.
  - simpl in Hrun. destruct (exec P l s) as [s1| | | |] eqn:Hl; try discriminate.
    unfold no_resets in Hnr. simpl in Hnr. apply andb_prop in Hnr as [Hl0 Hnr].
    apply negb_true_iff in Hl0.
    destruct (outside_reset_step _ _ _ Hin Hl0 Hl) as (Hin1 & Hlen1 & _).
    destruct (timeline_step l s s1 Hlen ltac:(lia) Hl) as (added1 & Ht1).
    destruct (IH s1 ltac:(lia) Hin1 Hnr Hrun) as (added & Ht).
    unfold timeline in Ht1. exists (added1 ++ added).
    rewrite Ht, Ht1. symmetry. apply app_assoc.
Qed.

End Fifo.

Section Accounting.
Variable P : platform.

Lemma busy_workers_le_length v : busy_workers v <= Z.of_nat (length v).
Proof.
  induction v as [|th v IH]; simpl; [lia|].
  destruct th as [|[]]; simpl; lia.
Qed.

Lemma busy_workers_lookup v i th : v !! i = Some th -> busy th <= busy_workers v.
Proof.
  revert i. induction v as [|x v IH]; intros [|i] H; simpl in *; try discriminate.
  - injection H as ->. pose proof (busy_workers_nonneg v). lia.
  - specialize (IH _ H). destruct x as [|[]]; simpl; lia.
Qed.

(** X12: what [getTasksRunningCount()] counts.  In every reachable
    state whose outstanding tasks fit [size_t], the running count of the
    pool is the number of workers between [popTask] and the decrement of
    line 182, plus the [addTask] calls that have incremented the counter
    and not pushed yet: a task being submitted counts as running before
    it is queued.  The workers' share never exceeds the number of
    threads, so with no [addTask] under way the running count is at most
    [getThreadsCount()]. *)
Theorem running_count_counts (s : pool) :
  reachable P s -> outstanding s < modulus P ->
  running_now P s
  = busy_workers (m_threads s) + Z.of_nat (length (submitting s))
    + adding (owner s) /\
  busy_workers (m_threads s) <= Z.of_nat (length (m_threads s)) /\
  (serving (owner s) = true -> submitting s = [] -> adding (owner s) = 0 ->
   0 <= getThreadsCount s -> running_now P s <= getThreadsCount s).
Proof.
  intros Hreach Hfit.
  pose proof (counter_inv_reachable P _ Hreach) as Hc.
  pose proof (busy_workers_nonneg (m_threads s)) as Hb.
  pose proof (busy_workers_le_length (m_threads s)) as Hle.
  assert (Ha : 0 <= adding (owner s)) by (destruct (owner s); simpl; lia).
  assert (Hrun : running_now P s
    = busy_workers (m_threads s) + Z.of_nat (length (submitting s))
      + adding (owner s)).
  { unfold counter_inv in Hc.
    unfold running_now, getTasksRunningCount, size_sub, getTasksQueuedCount.
    unfold outstanding in *. rewrite wrap_small in Hc by lia.
    rewrite wrap_small by lia. lia. }
  split; [assumption|]. split; [assumption|].
  intros Hserv Hsub Hadd Hn. rewrite Hrun, Hsub, Hadd. simpl.
  pose proof (life_inv_reachable P _ Hreach) as Hl.
  pose proof (shape_inv_reachable P _ Hreach) as Hs.
  unfold life_inv, shape_inv, getThreadsCount in *.
  destruct (owner s); try discriminate; lia.
Qed.

(** X13: the decrement of line 182 never wraps: whenever a worker
    stands at it (the outstanding tasks fitting [size_t]) the counter is
    positive, and the step takes exactly one off the counter and off the
    outstanding tasks. *)
Theorem counter_never_underflows (s s' : pool) (i : nat) :
  reachable P s -> outstanding s < modulus P ->
  m_threads s !! i = Some (Worker WDec) -> exec P (LWorker i) s = Ok s' ->
  0 < m_tasksTotalCount s /\
  m_tasksTotalCount s' = m_tasksTotalCount s - 1 /\
  outstanding s' = outstanding s - 1.
Proof.
  intros Hreach Hfit Hth Hexec.
  pose proof (counter_inv_reachable P _ Hreach) as Hc.
  pose proof (counter_inv_reachable P _ (reachable_step P _ _ _ Hreach Hexec)) as Hc'.
  pose proof (busy_workers_lookup _ _ _ Hth) as Hb. simpl in Hb.
  pose proof (busy_workers_nonneg (m_threads s)) as Hb0.
  assert (Ha : 0 <= adding (owner s)) by (destruct (owner s); simpl; lia).
  unfold counter_inv in *.
  assert (Hout : outstanding s' = outstanding s - 1).
  { unfold exec, worker in Hexec. rewrite Hth in Hexec.
    destruct (owner s); try discriminate; injection Hexec as <-;
      unfold outstanding; pool_simpl;
      rewrite (busy_workers_insert _ _ _ _ Hth); simpl; lia. }
  assert (Hpos : 0 < outstanding s) by (unfold outstanding; lia).
  rewrite Hout in Hc'. rewrite wrap_small in Hc by lia.
  rewrite wrap_small in Hc' by lia. lia.
Qed.

End Accounting.

Section PausedWait.
Variable P : platform.

(** X14: [waitForTasks] on a paused pool can always return, whatever is
    queued and however many workers there are (even none): the
    concurrent [addTask] calls complete, every worker finishes the task
    it holds, and the two samples of [getTasksRunningCount] then differ
    by 0.  The pool is still paused and its running count is 0. *)
Theorem paused_waitForTasks_can_return (s : pool) (w : waiter) :
  reachable P s -> owner s = OWait w -> m_paused s = true ->
  exists sched s',
    no_calls sched /\ run P sched s = Ok s' /\ owner s' = after_wait w /\
    m_paused s' = true /\ running_now P s' = 0 /\
    submitting s' = [] /\ Forall settled (m_threads s').
Proof.
  intros Hreach Hown Hp.
  assert (Halive : owner s <> ODestroyed) by (rewrite Hown; discriminate).
  pose proof (flush_submitting P (submitting s) s eq_refl Halive) as Hl1.
  set (s1 := set_submitting [] (set_tasks (m_tasks s ++ submitting s) s)) in *.
  destruct (settle_all P s1) as (s2 & Hl2 & (Hp2 & Hr2 & Ho2 & Hs2 & Hc2 & Hlen2) & Hset2);
    [exact Halive|].
  pose proof (leads_trans _ _ _ _ Hl1 Hl2) as Hl02.
  pose proof (leads_reachable _ _ _ Hreach Hl02) as Hreach2.
  assert (Ho2' : owner s2 = OWait w) by (rewrite Ho2; exact Hown).
  assert (Hp2' : m_paused s2 = true) by (rewrite Hp2; exact Hp).
  pose proof (counter_inv_reachable P _ Hreach2) as Hc.
  pose proof (waitForTasks_returns_when_settled P _ _ Ho2' Hp2' Hc Hset2 Hs2) as Hl3.
  destruct (leads_trans _ _ _ _ Hl02 Hl3) as (sched & Hnc & Hrun).
  exists sched, (set_owner (after_wait w) s2).
  split; [assumption|]. split; [assumption|]. pool_simpl.
  split; [reflexivity|]. split; [assumption|]. split; [|split; assumption].
  unfold counter_inv, outstanding in Hc.
  rewrite (busy_workers_settled _ Hset2), Hs2, Ho2' in Hc. simpl in Hc.
  unfold running_now, getTasksRunningCount, getTasksQueuedCount. pool_simpl.
  rewrite Hc.
  replace (Z.of_nat (length (m_tasks s2)) + 0 + Z.of_nat 0 + 0)
    with (Z.of_nat (length (m_tasks s2))) by lia.
  apply size_sub_wrap_self.
Qed.

End PausedWait.

(** * The pause check and [popTask] are two steps *)

Section Race.
Variable P : platform.

Lemma worker_not_destroyed (s : pool) (i : nat) (pc : wpc) :
  reachable P s -> m_threads s !! i = Some (Worker pc) -> owner s <> ODestroyed.
Proof.
  intros Hr Hth Hown.
  pose proof (life_inv_reachable P _ Hr) as Hl.
  unfold life_inv in Hl. rewrite Hown in Hl. destruct Hl as (_ & Hall).
  pose proof (proj1 (Forall_lookup _ _) Hall _ _ Hth) as Hj. discriminate Hj.
Qed.

(** C6: line 179 reads [m_paused] and then calls [popTask] in two
    separate steps, so the guard does not hold for a worker between
    them.  In every reachable state in which the flag is set, the queue
    is not empty and a worker has read the flag as false and stands
    before [popTask], that worker's next step dequeues the task at the
    head of the queue and its step after that calls the task, the flag
    being set all the while. *)
Theorem pause_check_race (s : pool) (i : nat) (c : task) (q : list task) :
  reachable P s -> m_paused s = true ->
  m_threads s !! i = Some (Worker WPop) -> m_tasks s = c :: q ->
  exists s1 s2,
    exec P (LWorker i) s = Ok s1 /\
    m_paused s1 = true /\ m_tasks s1 = q /\
    m_threads s1 !! i = Some (Worker (WRun c)) /\
    exec P (LWorker i) s1 = Ok s2 /\
    m_paused s2 = true /\ m_tasks s2 = q /\ executed s2 = c :: executed s.
Proof.
  intros Hr Hp Hth Hq.
  pose proof (worker_not_destroyed s i WPop Hr Hth) as Halive.
  pose proof (lookup_lt_Some _ _ _ Hth) as Hlt.
  set (s1 := set_thread i (Worker (WRun c)) (set_tasks q s)).
  assert (Hth1 : m_threads s1 !! i = Some (Worker (WRun c))).
  { subst s1. pool_simpl. now apply list_lookup_insert_eq. }
  exists s1, (set_thread i (Worker WDec) (log_call c s1)).
  split.
  { rewrite (exec_worker P i s WPop Halive Hth), Hq. reflexivity. }
  split; [exact Hp|]. split; [reflexivity|]. split; [exact Hth1|].
  split.
  { rewrite (exec_worker P i s1 (WRun c)); [reflexivity|exact Halive|exact Hth1]. }
  subst s1. pool_simpl. auto.
Qed.

(** C3: the same two steps let the destructor of a paused pool run a
    queued task.  From every reachable paused pool whose owner is
    outside a call, whose queue is not empty and in which a worker has
    read [m_paused] as false and stands before [popTask], the destructor
    can be run to its end with the task at the head of the queue called
    on the way, the pool being paused throughout. *)
Theorem destruction_runs_queued_task
    (s : pool) (i : nat) (c : task) (q : list task) :
  reachable P s -> owner s = OIdle -> m_paused s = true ->
  m_threads s !! i = Some (Worker WPop) -> m_tasks s = c :: q ->
  exists sched s' ran,
    no_calls sched /\ run P (LCall OpDestroy :: sched) s = Ok s' /\
    owner s' = ODestroyed /\ m_paused s' = true /\
    executed s' = ran ++ executed s /\ In c ran.
Proof.
  intros Hr Hown Hp Hth Hq.
  set (s0 := set_owner (OWait (WTeardown TDtor)) s).
  assert (Hcall : exec P (LCall OpDestroy) s = Ok s0).
  { unfold exec, call. now rewrite Hown. }
  assert (Hpop : run P (repeat (LWorker i) 3) s0 = Ok (task_done P i c q s0)).
  { apply worker_takes_task_from_pop; [discriminate|exact Hth|exact Hq]. }
  pose proof (reachable_run P _ _ _ (reachable_step P _ _ _ Hr Hcall) Hpop) as Hr1.
  destruct (teardown_completes P TDtor (task_done P i c q s0) Hr1 eq_refl Hp)
    as (s' & (sched & Hnc & Hrun) & Hown' & Hp' & _).
  destruct (run_conservation P _ _ _ Hrun) as (_ & _ & ran & _ & Hex & _).
  exists (repeat (LWorker i) 3 ++ sched), s', (ran ++ [c]).
  split.
  { unfold no_calls in *. rewrite forallb_app, Hnc. reflexivity. }
  split.
  { cbn [run]. rewrite Hcall, run_app, Hpop. exact Hrun. }
  split; [exact Hown'|]. split; [exact Hp'|]. split.
  - rewrite Hex. unfold task_done, s0. pool_simpl. now rewrite <- app_assoc.
  - apply in_or_app. right. now left.
Qed.

End Race.

(** * The queue across [reset] *)

Section Rebuild.
Variable P : platform.

(** C4 (as amended): [reset] itself never touches the queue: each of
    its own steps leaves the queue, the counter and the call log as they
    are.  Once [reset] has joined the old workers (line 130), no thread
    of the pool is left and no worker holds a task; from there to the
    return of [reset] the queue loses tasks only at its head and gains
    them only at its tail, and every task that has left it was taken by
    one of the new workers that [createThreads] has started, which holds
    it or has called it.  So on return the queue is what the new workers
    have left of it, in the order it had, followed by the tasks
    submitted meanwhile. *)
Theorem reset_queue_discipline :
  (forall s1 s2, in_reset (owner s1) = true -> exec P LOwner s1 = Ok s2 ->
     m_tasks s2 = m_tasks s1 /\ executed s2 = executed s1 /\
     m_tasksTotalCount s2 = m_tasksTotalCount s1) /\
  (forall s k wp sched s',
     reachable P s -> owner s = OResetCount k wp ->
     no_calls sched -> run P sched s = Ok s' ->
     Forall joined (m_threads s) /\ in_flight s = [] /\
     exists n added ran,
       m_tasks s' = drop n (m_tasks s ++ added) /\
       executed s' = ran ++ executed s /\
       ran ++ in_flight s' ≡ₚ take n (m_tasks s ++ added)).
Proof.
  split; [exact (owner_step_in_reset P)|].
  intros s k wp sched s' Hr Hown _ Hrun.
  pose proof (life_inv_reachable P _ Hr) as Hl.
  unfold life_inv in Hl. rewrite Hown in Hl. destruct Hl as (_ & Hall).
  assert (Hf : in_flight s = []).
  { unfold in_flight. apply held_joined.
    now apply Forall_joined_not_joinable. }
  split; [assumption|]. split; [assumption|].
  destruct (run_conservation P _ _ _ Hrun) as (n & added & ran & Hq & Hex & Hp).
  rewrite Hf, app_nil_r in Hp. eauto 10.
Qed.

End Rebuild.

(** * Scenarios on a 64-bit platform *)

Lemma raced_run : run x64 raced (construct x64 1) = Ok raced_pool.
Proof. reflexivity. Qed.

Lemma raced_reachable : reachable x64 raced_pool.
Proof. exists 1, raced. split; [split; [lia|reflexivity]|reflexivity]. Defined.

Lemma paused_one_reachable : reachable x64 paused_one_pool.
Proof. exists 1, paused_one. split; [split; [lia|reflexivity]|reflexivity]. Defined.

Lemma skewed_reachable : reachable x64 (skewed_pool (OWaitRunning2 WUser 1)).
Proof. exists 1, skewed. split; [split; [lia|reflexivity]|reflexivity]. Defined.

Lemma reset_zero_run :
  run x64 (started ++ LCall (OpReset 0) :: reset_zero) (construct x64 1)
    = Ok reset_zero_pool.
Proof. reflexivity. Qed.

Lemma reset_zero_reachable : reachable x64 reset_zero_pool.
Proof.
  exists 1, (started ++ LCall (OpReset 0) :: reset_zero).
  split; [split; [lia|reflexivity]|reflexivity].
Defined.

(** C2, as worded, fails: in [skewed_pool] the counter was sampled as 1
    before task 2 was submitted and the queue length is sampled as 1
    after, so [waitForTasks] returns although task 1 is still held by a
    worker and [getTasksRunningCount] on the pool gives 1. *)
Theorem waitForTasks_not_quiescent : ~ quiescent_on_return x64.
Proof.
  intros H.
  destruct (H WUser (skewed_pool (OWaitRunning2 WUser 1)) (skewed_pool OIdle))
    as [_ Hrun].
  - exact skewed_reachable.
  - split; [right; eexists; reflexivity|]. split; reflexivity.
  - specialize (Hrun eq_refl). vm_compute in Hrun. discriminate.
Qed.

(** The same on a platform that evaluates the subtrahend first, where it
    takes a worker that had passed its pause check. *)
Lemma skewed_rtl_reachable :
  reachable x64_rtl (skewed_rtl_pool (OWaitRunning2 WUser 1)).
Proof. exists 1, skewed_rtl. split; [split; [lia|reflexivity]|reflexivity]. Qed.

Lemma waitForTasks_not_quiescent_rtl : ~ quiescent_on_return x64_rtl.
Proof.
  intros H.
  destruct (H WUser (skewed_rtl_pool (OWaitRunning2 WUser 1)) (skewed_rtl_pool OIdle))
    as [_ Hrun].
  - exact skewed_rtl_reachable.
  - split; [right; eexists; reflexivity|]. split; reflexivity.
  - specialize (Hrun eq_refl). vm_compute in Hrun. discriminate.
Qed.

(** C3, as worded, fails: the destructor of [raced_pool], a paused pool
    with task 1 queued, runs to its end and task 1 is called, by the
    worker that had read [m_paused] before the pool was paused. *)
Theorem paused_destruction_runs_queued_task :
  ~ paused_destruction_runs_nothing x64.
Proof.
  intros H.
  destruct (H raced_pool destroy_raced destroyed_raced_pool)
    as (ran & Hex & Hnot); try reflexivity.
  - exact raced_reachable.
  - discriminate.
  - simpl in Hex. rewrite app_nil_r in Hex. subst ran.
    apply (Hnot (job 1)); simpl; auto.
Qed.

(** C4, as worded, fails: [reset(2)] on [paused_one_pool] returns with an
    empty queue: the first worker it creates has dequeued task 1 before
    [createThreads] is done. *)
Theorem reset_returns_with_shorter_queue : ~ reset_keeps_queue x64.
Proof.
  intros H.
  destruct (H paused_one_pool 2 reset_two reset_two_pool) as (added & Hq);
    try reflexivity.
  - exact paused_one_reachable.
  - discriminate.
Qed.

(** C6, as worded, fails: in [raced_pool] the flag is set and the next
    step of worker 0 takes task 1 from the queue. *)
Theorem paused_worker_dequeues : ~ paused_workers_inert x64.
Proof.
  intros H.
  destruct (H raced_pool 0%nat
              (set_thread 0 (Worker (WRun (job 1))) (set_tasks [] raced_pool)))
    as [Hq _]; try reflexivity.
  - exact raced_reachable.
  - discriminate.
Qed.

(** The counts that [checkThreadPoolPausing] expects (for
    [count_tasks = 1]) are the counts of the model along the schedule
    that the sleeps of the test aim at. *)
Example checkThreadPoolPausing_counts :
  counts x64 (run x64 pausing_1 (construct x64 1)) = Some (3, 0, 3) /\
  counts x64 (run x64 pausing_2 (construct x64 1)) = Some (3, 0, 3) /\
  counts x64 (run x64 pausing_3 (construct x64 1)) = Some (2, 1, 1) /\
  counts x64 (run x64 pausing_4 (construct x64 1)) = Some (1, 0, 1) /\
  counts x64 (run x64 pausing_5 (construct x64 1)) = Some (1, 0, 1) /\
  counts x64 (run x64 pausing_6 (construct x64 1)) = Some (0, 0, 0).
Proof. repeat split; vm_compute; reflexivity. Qed.

(** [checkThreadPoolInitialization]: a pool constructed with the default
    argument has [hardware_concurrency()] workers and all counts 0. *)
Example checkThreadPoolInitialization_counts :
  exists s, run x64 (repeat LOwner 5) (construct x64 (hardware_concurrency x64)) = Ok s /\
    owner s = OIdle /\ getThreadsCount s = hardware_concurrency x64 /\
    m_threads s = replicate 4 (Worker WLoop) /\
    counts x64 (Ok s) = Some (0, 0, 0).
Proof. eexists. split; [reflexivity|]. repeat split. Qed.

(** Samples with the queue ahead of the counter do occur: in [borrowed]
    the first operand of [getTasksRunningCount] is sampled as 0 and the
    second as 1, the difference is [2^64 - 1], and [waitForTasks] goes
    round its loop again. *)
Example waitForTasks_sees_wrapped_count :
  exists s,
    run x64 borrowed (construct x64 1) = Ok s /\
    owner s = OWaitRunning2 WUser 0 /\ getTasksQueuedCount s = 1 /\
    getTasksRunningCount x64 0 (getTasksQueuedCount s) = 18446744073709551615 /\
    exec x64 LOwner s = Ok (set_owner (OWaitYield WUser) s).
Proof. eexists. split; [vm_compute; reflexivity|]. repeat split; vm_compute; reflexivity. Qed.

(** * The theorems at work on the scenarios *)

Lemma getTasksRunningCount_wraps_witness :
  (0 <= 0 /\ 0 < 1 /\ 1 < modulus x64) /\
  getTasksRunningCount x64 0 1 = modulus x64 - (1 - 0).
Proof.
  assert (H : 0 <= 0 /\ 0 < 1 /\ 1 < modulus x64)
    by (split; [discriminate|split; reflexivity]).
  split; [exact H|].
  destruct H as (H0 & H1 & H2).
  exact (proj1 (getTasksRunningCount_wraps x64 0 1 H0 H1 H2)).
Defined.

Lemma popTask_head_or_empty_witness :
  [job 1; job 2] <> [] /\
  exists c, fst (popTask [job 1; job 2]) = Some c /\
            head [job 1; job 2] = Some c /\
            [job 1; job 2] = c :: snd (popTask [job 1; job 2]) /\
            S (length (snd (popTask [job 1; job 2]))) = length [job 1; job 2].
Proof.
  assert (H : [job 1; job 2] <> []) by discriminate.
  split; [exact H|].
  exact (proj1 (popTask_head_or_empty x64 [job 1; job 2]) H).
Defined.

Lemma addTask_effect_witness :
  owner paused_one_pool = OIdle /\
  run x64 [LCall (OpAddTask (job 2)); LOwner; LOwner] paused_one_pool
    = Ok paused_two_pool /\
  m_tasks paused_two_pool = [job 1; job 2] /\
  m_tasksTotalCount paused_two_pool = 2 /\
  task_added x64 (job 2) paused_one_pool paused_two_pool.
Proof.
  split; [reflexivity|]. split; [reflexivity|].
  split; [reflexivity|]. split; [reflexivity|].
  destruct (proj1 (addTask_effect x64 paused_one_pool (job 2) eq_refl))
    as (s' & Hrun & Hadd).
  change (Ok paused_two_pool = Ok s') in Hrun.
  injection Hrun as <-. exact Hadd.
Defined.


Lemma queued_le_total_witness :
  (reachable x64 raced_pool /\ outstanding raced_pool < modulus x64) /\
  getTasksQueuedCount raced_pool <= getTasksTotalCount raced_pool.
Proof.
  split; [split; [exact raced_reachable|reflexivity]|].
  exact (proj1 (proj2 (proj2 (proj2
           (queued_le_total x64 raced_pool raced_reachable eq_refl))))).
Defined.

Lemma skewed_wait_returns :
  wait_returns x64 WUser (skewed_pool (OWaitRunning2 WUser 1)) (skewed_pool OIdle).
Proof. split; [right; eexists; reflexivity|]. split; reflexivity. Defined.

Lemma waitForTasks_return_samples_witness :
  (reachable x64 (skewed_pool (OWaitRunning2 WUser 1)) /\
   wait_returns x64 WUser (skewed_pool (OWaitRunning2 WUser 1)) (skewed_pool OIdle)) /\
  m_paused (skewed_pool OIdle) = true /\
  exists v s0,
    owner (skewed_pool (OWaitRunning2 WUser 1)) = OWaitRunning2 WUser v /\
    reachable x64 s0 /\ owner s0 = OWaitRunning WUser /\ v = first_sample x64 s0 /\
    getTasksRunningCount x64 v (getTasksQueuedCount (skewed_pool OIdle)) = 0 /\
    (v = first_sample x64 (skewed_pool OIdle) ->
     running_now x64 (skewed_pool OIdle) = 0).
Proof.
  split; [split; [exact skewed_reachable|exact skewed_wait_returns]|].
  split; [reflexivity|].
  exact (proj2 (proj2 (proj2 (waitForTasks_return_samples x64 WUser _ _
                                skewed_reachable skewed_wait_returns))) eq_refl).
Defined.

Lemma reset_clears_paused_witness :
  (owner paused_one_pool = OIdle /\ no_calls reset_two /\
   run x64 (LCall (OpReset 2) :: reset_two) paused_one_pool = Ok reset_two_pool /\
   owner reset_two_pool = OIdle) /\
  m_paused paused_one_pool = true /\ m_paused reset_two_pool = false.
Proof.
  split; [repeat split|]. split; [reflexivity|].
  exact (reset_clears_paused x64 paused_one_pool 2 reset_two reset_two_pool
           eq_refl eq_refl eq_refl eq_refl).
Defined.


Lemma joined_one_reachable : reachable x64 joined_one_pool.
Proof.
  exists 1, (paused_one ++ LCall (OpReset 2) :: reset_two_join).
  split; [split; [lia|reflexivity]|reflexivity].
Defined.

Lemma reset_queue_discipline_witness :
  (reachable x64 joined_one_pool /\ owner joined_one_pool = OResetCount 2 true /\
   no_calls reset_two_rebuild /\
   run x64 reset_two_rebuild joined_one_pool = Ok reset_two_pool) /\
  in_flight joined_one_pool = [] /\
  exists n added ran,
    m_tasks reset_two_pool = drop n (m_tasks joined_one_pool ++ added) /\
    executed reset_two_pool = ran ++ executed joined_one_pool /\
    ran ++ in_flight reset_two_pool ≡ₚ take n (m_tasks joined_one_pool ++ added).
Proof.
  split; [split; [exact joined_one_reachable|repeat split]|].
  exact (proj2 (proj2 (reset_queue_discipline x64) joined_one_pool 2 true
                  reset_two_rebuild reset_two_pool joined_one_reachable
                  eq_refl eq_refl eq_refl)).
Defined.

Lemma reset_zero_overruns_vector_witness :
  (reachable x64 reset_zero_pool /\
   owner reset_zero_pool = OCreate (BReset 0 false) 0 /\
   0 < hardware_concurrency x64) /\
  getThreadsCount reset_zero_pool = 4 /\
  length (m_threads reset_zero_pool) = 0%nat /\
  exec x64 LOwner reset_zero_pool = Undefined.
Proof.
  split; [split; [exact reset_zero_reachable|split; reflexivity]|].
  destruct (reset_zero_overruns_vector x64 reset_zero_pool false 0
              reset_zero_reachable eq_refl eq_refl) as (_ & _ & Hc & Hv & Hub).
  split; [exact Hc|]. split; [now rewrite Hv|exact Hub].
Defined.

Lemma pause_check_race_witness :
  (reachable x64 raced_pool /\ m_paused raced_pool = true /\
   m_threads raced_pool !! 0%nat = Some (Worker WPop) /\
   m_tasks raced_pool = [job 1]) /\
  exists s1 s2,
    exec x64 (LWorker 0%nat) raced_pool = Ok s1 /\
    m_paused s1 = true /\ m_tasks s1 = [] /\
    m_threads s1 !! 0%nat = Some (Worker (WRun (job 1))) /\
    exec x64 (LWorker 0%nat) s1 = Ok s2 /\
    m_paused s2 = true /\ m_tasks s2 = [] /\
    executed s2 = job 1 :: executed raced_pool.
Proof.
  split; [split; [exact raced_reachable|repeat split]|].
  exact (pause_check_race x64 raced_pool 0%nat (job 1) [] raced_reachable
           eq_refl eq_refl eq_refl).
Defined.

Lemma destruction_runs_queued_task_witness :
  (reachable x64 raced_pool /\ owner raced_pool = OIdle /\
   m_paused raced_pool = true /\
   m_threads raced_pool !! 0%nat = Some (Worker WPop) /\
   m_tasks raced_pool = [job 1]) /\
  exists sched s' ran,
    no_calls sched /\ run x64 (LCall OpDestroy :: sched) raced_pool = Ok s' /\
    owner s' = ODestroyed /\ m_paused s' = true /\
    executed s' = ran ++ executed raced_pool /\ In (job 1) ran.
Proof.
  split; [split; [exact raced_reachable|repeat split]|].
  exact (destruction_runs_queued_task x64 raced_pool 0%nat (job 1) []
           raced_reachable eq_refl eq_refl eq_refl eq_refl).
Defined.

(** * Further scenarios on a 64-bit platform *)

Lemma busy_one_reachable : reachable x64 busy_one_pool.
Proof. exists 1, busy_one. split; [split; [lia|reflexivity]|reflexivity]. Defined.

Lemma waiting_one_reachable :
  reachable x64 (set_owner (OWait WUser) busy_one_pool).
Proof.
  exists 1, (busy_one ++ [LCall OpWaitForTasks]).
  split; [split; [lia|reflexivity]|reflexivity].
Defined.

Lemma called_one_reachable : reachable x64 called_one_pool.
Proof.
  exists 1, (busy_one ++ repeat (LWorker 0%nat) 4).
  split; [split; [lia|reflexivity]|reflexivity].
Defined.

Lemma paused_waiting_reachable :
  reachable x64 (set_owner (OWait WUser) paused_one_pool).
Proof.
  exists 1, (paused_one ++ [LCall OpWaitForTasks]).
  split; [split; [lia|reflexivity]|reflexivity].
Defined.

Lemma destroyed_paused_one_reachable : reachable x64 destroyed_paused_one_pool.
Proof.
  exists 1, (paused_one ++ LCall OpDestroy :: destroy_paused_one).
  split; [split; [lia|reflexivity]|reflexivity].
Defined.

Lemma stranded_reachable : reachable x64_no_hint (stranded_pool [job 1]).
Proof. exists 0, stranded. split; [split; [lia|reflexivity]|reflexivity]. Defined.


Lemma pool_keeps_its_workers_witness :
  (reachable x64 busy_one_pool /\ serving (owner busy_one_pool) = true) /\
  m_running busy_one_pool = true /\
  length (m_threads busy_one_pool) = Z.to_nat (getThreadsCount busy_one_pool) /\
  Forall live (m_threads busy_one_pool).
Proof.
  split; [split; [exact busy_one_reachable|reflexivity]|].
  exact (pool_keeps_its_workers x64 busy_one_pool busy_one_reachable eq_refl).
Defined.

Lemma owner_steps_fail_only_in_reset_witness :
  (reachable x64 reset_zero_pool /\ exec x64 LOwner reset_zero_pool = Undefined) /\
  exec x64 LOwner reset_zero_pool <> Terminated /\
  0 < hardware_concurrency x64 /\ m_threads reset_zero_pool = [] /\
  exists wp, owner reset_zero_pool = OCreate (BReset 0 wp) 0.
Proof.
  split; [split; [exact reset_zero_reachable|reflexivity]|].
  destruct (owner_steps_fail_only_in_reset x64 reset_zero_pool
              reset_zero_reachable) as (Hterm & Hundef & _).
  split; [exact Hterm|]. exact (Hundef eq_refl).
Defined.

Lemma destructor_joins_every_worker_witness :
  (reachable x64 destroyed_paused_one_pool /\
   owner destroyed_paused_one_pool = ODestroyed) /\
  m_running destroyed_paused_one_pool = false /\
  Forall joined (m_threads destroyed_paused_one_pool) /\
  existsb joinable (m_threads destroyed_paused_one_pool) = false /\
  length (m_threads destroyed_paused_one_pool)
  = Z.to_nat (getThreadsCount destroyed_paused_one_pool).
Proof.
  split; [split; [exact destroyed_paused_one_reachable|reflexivity]|].
  exact (destructor_joins_every_worker x64 destroyed_paused_one_pool
           destroyed_paused_one_reachable eq_refl).
Defined.

Lemma reset_returns_resized_witness :
  (reachable x64 paused_one_pool /\ owner paused_one_pool = OIdle /\
   no_calls reset_two /\
   run x64 (LCall (OpReset 2) :: reset_two) paused_one_pool = Ok reset_two_pool /\
   owner reset_two_pool = OIdle) /\
  getThreadsCount reset_two_pool = fallback x64 2 /\
  length (m_threads reset_two_pool) = Z.to_nat (getThreadsCount reset_two_pool) /\
  length (m_threads reset_two_pool) = Z.to_nat 2 /\
  Forall live (m_threads reset_two_pool) /\
  m_running reset_two_pool = true /\ m_paused reset_two_pool = false /\
  (2 = 0 -> hardware_concurrency x64 <= 0).
Proof.
  split; [split; [exact paused_one_reachable|repeat split]|].
  exact (reset_returns_resized x64 paused_one_pool 2 reset_two reset_two_pool
           paused_one_reachable eq_refl eq_refl eq_refl eq_refl).
Defined.

Lemma reset_can_return_witness :
  (reachable x64 paused_one_pool /\ owner paused_one_pool = OIdle /\
   2 <= max_size x64 /\ Z.to_nat (fallback x64 2) = Z.to_nat 2) /\
  exists sched s',
    no_calls sched /\ run x64 (LCall (OpReset 2) :: sched) paused_one_pool = Ok s' /\
    owner s' = OIdle /\ getThreadsCount s' = fallback x64 2 /\
    length (m_threads s') = Z.to_nat 2 /\ Forall live (m_threads s') /\
    m_paused s' = false /\ m_running s' = true.
Proof.
  assert (Hmax : 2 <= max_size x64) by (now apply Z.leb_le).
  split; [split; [exact paused_one_reachable|]; split; [reflexivity|];
          split; [exact Hmax|reflexivity]|].
  exact (reset_can_return x64 paused_one_pool 2 paused_one_reachable
           eq_refl Hmax eq_refl).
Defined.


Lemma waitForTasks_can_return_witness :
  (reachable x64 (set_owner (OWait WUser) busy_one_pool) /\
   owner (set_owner (OWait WUser) busy_one_pool) = OWait WUser /\
   m_paused (set_owner (OWait WUser) busy_one_pool) = false /\
   0 < getThreadsCount (set_owner (OWait WUser) busy_one_pool)) /\
  exists sched s1 s',
    no_calls sched /\
    run x64 sched (set_owner (OWait WUser) busy_one_pool) = Ok s1 /\
    wait_returns x64 WUser s1 s' /\
    m_paused s' = false /\ m_tasks s' = [] /\ getTasksTotalCount s' = 0 /\
    submitting s' = [].
Proof.
  split; [split; [exact waiting_one_reachable|repeat split]|].
  exact (waitForTasks_can_return x64 (set_owner (OWait WUser) busy_one_pool)
           WUser waiting_one_reachable eq_refl eq_refl eq_refl).
Defined.


Lemma workerless_pool_never_drains_witness :
  (reachable x64_no_hint (stranded_pool [job 1]) /\
   m_threads (stranded_pool [job 1]) = [] /\
   m_paused (stranded_pool [job 1]) = false /\
   owner (stranded_pool [job 1]) = OWait WUser /\
   0 < outstanding (stranded_pool [job 1]) /\
   outstanding (stranded_pool [job 1]) + Z.of_nat (length spinning)
     < modulus x64_no_hint /\
   run x64_no_hint spinning (stranded_pool [job 1])
     = Ok (stranded_pool [job 1; job 2])) /\
  in_wait_loop WUser (owner (stranded_pool [job 1; job 2])) /\
  owner (stranded_pool [job 1; job 2]) <> after_wait WUser /\
  executed (stranded_pool [job 1; job 2]) = executed (stranded_pool [job 1]) /\
  m_tasksTotalCount (stranded_pool [job 1; job 2]) <> 0 /\
  exists added,
    m_tasks (stranded_pool [job 1; job 2])
    = m_tasks (stranded_pool [job 1]) ++ added.
Proof.
  split; [split; [exact stranded_reachable|repeat split]|].
  exact (workerless_pool_never_drains x64_no_hint (stranded_pool [job 1])
           (stranded_pool [job 1; job 2]) WUser spinning stranded_reachable
           eq_refl eq_refl eq_refl eq_refl eq_refl eq_refl).
Defined.

Lemma single_worker_runs_in_order_witness :
  ((length (m_threads busy_one_pool) <= 1)%nat /\
   in_reset (owner busy_one_pool) = false /\ no_resets second_task /\
   run x64 second_task busy_one_pool = Ok second_task_pool) /\
  exists added, timeline second_task_pool = timeline busy_one_pool ++ added.
Proof.
  split; [split; [simpl; lia|repeat split]|].
  exact (single_worker_runs_in_order x64 busy_one_pool second_task_pool
           second_task (le_n 1) eq_refl eq_refl eq_refl).
Defined.

Lemma thread_count_fixed_outside_reset_witness :
  (in_reset (owner paused_one_pool) = false /\
   no_resets (LCall OpDestroy :: destroy_paused_one) /\
   run x64 (LCall OpDestroy :: destroy_paused_one) paused_one_pool
     = Ok destroyed_paused_one_pool) /\
  getThreadsCount destroyed_paused_one_pool = getThreadsCount paused_one_pool /\
  length (m_threads destroyed_paused_one_pool)
  = length (m_threads paused_one_pool) /\
  in_reset (owner destroyed_paused_one_pool) = false.
Proof.
  split; [repeat split|].
  exact (thread_count_fixed_outside_reset x64 paused_one_pool
           destroyed_paused_one_pool (LCall OpDestroy :: destroy_paused_one)
           eq_refl eq_refl eq_refl).
Defined.

Lemma running_count_counts_witness :
  (reachable x64 (skewed_pool (OWaitRunning2 WUser 1)) /\
   outstanding (skewed_pool (OWaitRunning2 WUser 1)) < modulus x64) /\
  running_now x64 (skewed_pool (OWaitRunning2 WUser 1))
  = busy_workers (m_threads (skewed_pool (OWaitRunning2 WUser 1)))
    + Z.of_nat (length (submitting (skewed_pool (OWaitRunning2 WUser 1))))
    + adding (owner (skewed_pool (OWaitRunning2 WUser 1))).
Proof.
  split; [split; [exact skewed_reachable|reflexivity]|].
  exact (proj1 (running_count_counts x64 (skewed_pool (OWaitRunning2 WUser 1))
                  skewed_reachable eq_refl)).
Defined.

Lemma counter_never_underflows_witness :
  (reachable x64 called_one_pool /\ outstanding called_one_pool < modulus x64 /\
   m_threads called_one_pool !! 0%nat = Some (Worker WDec) /\
   exec x64 (LWorker 0%nat) called_one_pool = Ok (drained_one_pool OIdle)) /\
  0 < m_tasksTotalCount called_one_pool /\
  m_tasksTotalCount (drained_one_pool OIdle) = m_tasksTotalCount called_one_pool - 1 /\
  outstanding (drained_one_pool OIdle) = outstanding called_one_pool - 1.
Proof.
  split; [split; [exact called_one_reachable|repeat split]|].
  exact (counter_never_underflows x64 called_one_pool (drained_one_pool OIdle)
           0%nat called_one_reachable eq_refl eq_refl eq_refl).
Defined.

Lemma paused_waitForTasks_can_return_witness :
  (reachable x64 (set_owner (OWait WUser) paused_one_pool) /\
   owner (set_owner (OWait WUser) paused_one_pool) = OWait WUser /\
   m_paused (set_owner (OWait WUser) paused_one_pool) = true) /\
  exists sched s',
    no_calls sched /\
    run x64 sched (set_owner (OWait WUser) paused_one_pool) = Ok s' /\
    owner s' = after_wait WUser /\ m_paused s' = true /\
    running_now x64 s' = 0 /\ submitting s' = [] /\
    Forall settled (m_threads s').
Proof.
  split; [split; [exact paused_waiting_reachable|repeat split]|].
  exact (paused_waitForTasks_can_return x64
           (set_owner (OWait WUser) paused_one_pool) WUser
           paused_waiting_reachable eq_refl eq_refl).
Defined.

Lemma checkThreadPoolReset_checks_witness :
  (reachable x64 paused_one_pool /\ owner paused_one_pool = OIdle /\
   0 <= hardware_concurrency x64 /\ no_calls reset_two /\
   run x64 (LCall (OpReset (hardware_concurrency x64 / 2)) :: reset_two)
     paused_one_pool = Ok reset_two_pool /\
   owner reset_two_pool = OIdle) /\
  hardware_concurrency x64 <> 1 /\
  getThreadsCount reset_two_pool = hardware_concurrency x64 / 2.
Proof.
  assert (Hhc : 0 <= hardware_concurrency x64) by (now apply Z.leb_le).
  split; [split; [exact paused_one_reachable|]; split; [reflexivity|];
          split; [exact Hhc|repeat split]|].
  destruct (checkThreadPoolReset_checks x64 paused_one_pool reset_two_pool
              reset_two paused_one_reachable eq_refl Hhc eq_refl eq_refl
              eq_refl) as (H1 & Hc & _).
  split; assumption.
Defined.

Lemma constructor_starts_workers_witness :
  (0 <= 2 < modulus x64 /\ fallback x64 2 <= max_size x64 /\
   forallb during_construction [LOwner; LWorker 0%nat; LOwner; LOwner] = true /\
   run x64 [LOwner; LWorker 0%nat; LOwner; LOwner] (construct x64 2)
     = Ok (set_threads [Worker WCheckPaused; Worker WLoop] (fresh_pool x64 2))) /\
  ThreadPool x64 2 = Ok (construct x64 2) /\
  run x64 (repeat LOwner 3) (construct x64 2) = Ok (fresh_pool x64 2) /\
  getThreadsCount (set_threads [Worker WCheckPaused; Worker WLoop] (fresh_pool x64 2))
  = fallback x64 2 /\
  Forall live
    (m_threads (set_threads [Worker WCheckPaused; Worker WLoop] (fresh_pool x64 2))).
Proof.
  assert (Hk : 0 <= 2 < modulus x64) by (split; [now apply Z.leb_le|reflexivity]).
  assert (Hmax : fallback x64 2 <= max_size x64) by (now apply Z.leb_le).
  split; [split; [exact Hk|split; [exact Hmax|split; reflexivity]]|].
  destruct (proj2 (constructor_starts_workers x64 2 Hk) Hmax) as (Hnew & Hrun & Hall).
  split; [exact Hnew|]. split; [exact Hrun|].
  destruct (Hall [LOwner; LWorker 0%nat; LOwner; LOwner]
              (set_threads [Worker WCheckPaused; Worker WLoop] (fresh_pool x64 2))
              eq_refl eq_refl eq_refl) as (Hc & _ & Hlive & _).
  split; assumption.
Defined.
